(** * payload-email-sweego: the Sweego REST e-mail adapter for Payload CMS

    A shallow embedding of [src/index.ts] and the properties of its
    message normaliser and response classifier.

    JavaScript strings are sequences of UTF-16 code units; they are
    modelled as lists of [N].  The built-ins the adapter calls
    ([String.prototype.trim], [replace] / [replaceAll] with the four
    regular expressions of the source, [Buffer.from], template
    literals) are modelled in the modules [JS], [RegExp] and [Utf8];
    the adapter itself is in [Sweego]. *)

From Stdlib Require Import String Ascii DecimalString.
From Stdlib Require Import List NArith ZArith PeanoNat Bool Lia.
Import ListNotations.

Set Implicit Arguments.

(* ================================================================== *)
(** * JavaScript strings *)

Module JS.

(** A string value: its UTF-16 code units, each below [0x10000]. *)
Definition jsstring := list N.

(** A literal of the source, written with the characters of ASCII. *)
Definition lit (s : string) : jsstring :=
  List.map N_of_ascii (list_ascii_of_string s).

(** [a === b] on two strings. *)
Fixpoint str_eqb (a b : jsstring) : bool :=
  match a, b with
  | [], [] => true
  | x :: a', y :: b' => N.eqb x y && str_eqb a' b'
  | _, _ => false
  end.

(** ToBoolean of a string: the empty string is the only falsy one. *)
Definition truthy (s : jsstring) : bool :=
  match s with [] => false | _ :: _ => true end.

(** ToBoolean of a value that is a string, [undefined] or [null]. *)
Definition truthy_opt (o : option jsstring) : bool :=
  match o with Some s => truthy s | None => false end.

(** LineTerminator of ECMAScript: LF, CR, LS, PS. *)
Definition isLineTerminator (c : N) : bool :=
  (c =? 0x0A)%N || (c =? 0x0D)%N || (c =? 0x2028)%N || (c =? 0x2029)%N.

(** WhiteSpace of ECMAScript: TAB, VT, FF, ZWNBSP and the code points of
    the Unicode category Space_Separator. *)
Definition isWhiteSpace (c : N) : bool :=
  (c =? 0x09)%N || (c =? 0x0B)%N || (c =? 0x0C)%N || (c =? 0xFEFF)%N
  || (c =? 0x20)%N || (c =? 0xA0)%N || (c =? 0x1680)%N
  || ((0x2000 <=? c)%N && (c <=? 0x200A)%N)
  || (c =? 0x202F)%N || (c =? 0x205F)%N || (c =? 0x3000)%N.

(** What [trim] removes: white space and line terminators. *)
Definition isTrimmed (c : N) : bool := isWhiteSpace c || isLineTerminator c.

Fixpoint trimStart (s : jsstring) : jsstring :=
  match s with
  | [] => []
  | c :: r => if isTrimmed c then trimStart r else s
  end.

Definition trimEnd (s : jsstring) : jsstring := rev (trimStart (rev s)).

(** [String.prototype.trim]. *)
Definition trim (s : jsstring) : jsstring := trimEnd (trimStart s).

(** The substring of [s] from index [a] (inclusive) to [b] (exclusive). *)
Definition substring (a b : nat) (s : jsstring) : jsstring :=
  firstn (b - a) (skipn a s).

(** Number::toString of a non-negative integer, as a template literal
    prints an HTTP status. *)
Definition numberToString (n : N) : jsstring :=
  lit (NilZero.string_of_uint (N.to_uint n)).

(** [Array.prototype.join] on an array of strings. *)
Fixpoint join (sep : jsstring) (l : list jsstring) : jsstring :=
  match l with
  | [] => []
  | [x] => x
  | x :: l' => x ++ sep ++ join sep l'
  end.

End JS.

(* ================================================================== *)
(** * The regular expressions of the source

    The four patterns of [index.ts] use pattern characters, greedy [.*],
    one capturing group, the assertions [^] and [$] and a disjunction.
    The matcher below is the backtracking matcher of ECMAScript,
    written with continuations as in the language specification, for
    this fragment. *)

Module RegExp.
Import JS.

Inductive term : Type :=
| Chr (c : N)        (* a pattern character *)
| DotStar            (* [.*]: greedy, [.] excludes line terminators *)
| Open               (* [(] of capturing group 1 *)
| Close              (* [)] of capturing group 1 *)
| Bos                (* [^], no multiline flag: start of input *)
| Eos.               (* [$], no multiline flag: end of input *)

Definition alternative := list term.

(** A pattern is a disjunction of alternatives, tried from the left. *)
Definition pattern := list alternative.

(** The state threaded through a match: where group 1 was opened and
    the span it captured, if it closed. *)
Record captures : Type := mkCaptures
  { opened : nat; group1 : option (nat * nat) }.

(** A successful match: its end index and the captures. *)
Definition result := (nat * captures)%type.

(** A continuation: given the current index, the input from there on
    and the captures, the rest of the match. *)
Definition cont := nat -> jsstring -> captures -> option result.

(** Greedy [.*] followed by [k]: consume as many characters as
    possible, none of them a line terminator, and give back one at a
    time until [k] succeeds. *)
Fixpoint star (k : nat -> jsstring -> option result)
    (pos : nat) (inp : jsstring) {struct inp} : option result :=
  match inp with
  | [] => k pos inp
  | x :: inp' =>
      if isLineTerminator x then k pos inp
      else match star k (S pos) inp' with
           | Some r => Some r
           | None => k pos inp
           end
  end.

Fixpoint matchAlt (ts : alternative) (k : cont) {struct ts} : cont :=
  fun pos inp st =>
    match ts with
    | [] => k pos inp st
    | Chr c :: ts' =>
        match inp with
        | x :: inp' => if (x =? c)%N then matchAlt ts' k (S pos) inp' st else None
        | [] => None
        end
    | DotStar :: ts' => star (fun pos' inp' => matchAlt ts' k pos' inp' st) pos inp
    | Open :: ts' => matchAlt ts' k pos inp (mkCaptures pos (group1 st))
    | Close :: ts' => matchAlt ts' k pos inp (mkCaptures (opened st) (Some (opened st, pos)))
    | Bos :: ts' => if (pos =? 0)%nat then matchAlt ts' k pos inp st else None
    | Eos :: ts' => match inp with [] => matchAlt ts' k pos inp st | _ :: _ => None end
    end.

(** A match of the pattern that starts exactly at index [pos]. *)
Fixpoint matchAt (p : pattern) (pos : nat) (inp : jsstring) : option result :=
  match p with
  | [] => None
  | a :: p' =>
      match matchAlt a (fun e _ st => Some (e, st)) pos inp (mkCaptures pos None) with
      | Some r => Some r
      | None => matchAt p' pos inp
      end
  end.

(** RegExpExec without the global flag: the leftmost start index from
    which the pattern matches, with the end index and the captures. *)
Fixpoint search (p : pattern) (pos : nat) (inp : jsstring) {struct inp}
    : option (nat * result) :=
  match matchAt p pos inp with
  | Some r => Some (pos, r)
  | None =>
      match inp with
      | [] => None
      | _ :: inp' => search p (S pos) inp'
      end
  end.

(** The two replacement templates of the source: group 1 ([$1]) and
    the empty string. *)
Inductive template : Type := Group1 | Nothing.

Definition substitute (t : template) (s : jsstring) (st : captures) : jsstring :=
  match t with
  | Nothing => []
  | Group1 =>
      match group1 st with
      | Some (a, b) => substring a b s
      | None => []
      end
  end.

(** [s.replace(p, t)] for a pattern without the global flag: the first
    match is replaced, the rest of the string is kept. *)
Definition replace (p : pattern) (t : template) (s : jsstring) : jsstring :=
  match search p 0 s with
  | None => s
  | Some (b, (e, st)) => firstn b s ++ substitute t s st ++ skipn e s
  end.

(** [s.replaceAll(p, t)] for a pattern with the global flag.  The loop
    of RegExp.prototype[Symbol.replace] walks the string from the left:
    at index [pos], outside a match ([inside = 0]), a match that starts
    here is replaced and its characters are dropped; an empty match
    advances by one character, which is kept; where nothing matches the
    character is kept.  [inside] counts the characters of the current
    match still to be dropped. *)
Fixpoint replaceAllAt (p : pattern) (t : template) (s : jsstring)
    (pos : nat) (inp : jsstring) (inside : nat) {struct inp} : jsstring :=
  match inside with
  | S n =>
      match inp with
      | [] => []
      | _ :: inp' => replaceAllAt p t s (S pos) inp' n
      end
  | O =>
      match matchAt p pos inp with
      | Some (e, st) =>
          substitute t s st ++
          match inp with
          | [] => []
          | c :: inp' =>
              if (e =? pos)%nat then c :: replaceAllAt p t s (S pos) inp' 0
              else replaceAllAt p t s (S pos) inp' (e - pos - 1)
          end
      | None =>
          match inp with
          | [] => []
          | c :: inp' => c :: replaceAllAt p t s (S pos) inp' 0
          end
      end
  end.

Definition replaceAll (p : pattern) (t : template) (s : jsstring) : jsstring :=
  replaceAllAt p t s 0 s 0.

Definition lt_sign : N := 60.   (* less-than sign *)
Definition gt_sign : N := 62.   (* greater-than sign *)
Definition dquote : N := 34.    (* double quote *)
Definition squote : N := 39.    (* apostrophe *)

(** The pattern of [extractEmailFromAddressString]: greedy any
    characters, a less-than sign, group 1 around greedy any characters,
    a greater-than sign. *)
Definition re_email : pattern :=
  [[DotStar; Chr lt_sign; Open; DotStar; Close; Chr gt_sign]].

(** The pattern of [extractNameFromAddressString]: group 1 around
    greedy any characters, a less-than sign, greedy any characters, a
    greater-than sign. *)
Definition re_name : pattern :=
  [[Open; DotStar; Close; Chr lt_sign; DotStar; Chr gt_sign]].

(** The two global patterns that strip one quote at the start of the
    input or at its end (first alternative: start anchor then the quote;
    second: the quote then end anchor), for the quote character [q]. *)
Definition re_quote (q : N) : pattern :=
  [[Bos; Chr q]; [Chr q; Eos]].

End RegExp.

(* ================================================================== *)
(** * UTF-8, the encoding of [Buffer.from(string)]

    [Buffer.from(s)] encodes with the default encoding, UTF-8: the code
    points of [s] are read from its UTF-16 code units, a surrogate that
    is not part of a pair is replaced by U+FFFD, and every code point
    is written on one to four bytes. *)

Module Utf8.
Import JS.

(** The content of a [Buffer]: bytes, each below 256. *)
Definition buffer := list N.

Definition isHighSurrogate (c : N) : bool := (0xD800 <=? c)%N && (c <=? 0xDBFF)%N.
Definition isLowSurrogate (c : N) : bool := (0xDC00 <=? c)%N && (c <=? 0xDFFF)%N.

Local Open Scope N_scope.

(** The code points of a string, an unpaired surrogate read as U+FFFD. *)
Fixpoint codePoints (s : jsstring) : list N :=
  match s with
  | [] => []
  | c :: r =>
      if isHighSurrogate c then
        match r with
        | d :: r' =>
            if isLowSurrogate d
            then (0x10000 + (c - 0xD800) * 0x400 + (d - 0xDC00)) :: codePoints r'
            else 0xFFFD :: codePoints r
        | [] => [0xFFFD]
        end
      else if isLowSurrogate c then 0xFFFD :: codePoints r
      else c :: codePoints r
  end.

Definition encodeCodePoint (cp : N) : buffer :=
  if cp <? 0x80 then [cp]
  else if cp <? 0x800 then [0xC0 + cp / 0x40; 0x80 + cp mod 0x40]
  else if cp <? 0x10000 then
    [0xE0 + cp / 0x1000; 0x80 + (cp / 0x40) mod 0x40; 0x80 + cp mod 0x40]
  else
    [0xF0 + cp / 0x40000; 0x80 + (cp / 0x1000) mod 0x40;
     0x80 + (cp / 0x40) mod 0x40; 0x80 + cp mod 0x40].

(** [Buffer.from(s)]. *)
Definition encode (s : jsstring) : buffer := flat_map encodeCodePoint (codePoints s).

Definition isContinuation (b : N) : bool := (0x80 <=? b) && (b <=? 0xBF).

(** The code points written in a byte sequence; [None] when the bytes
    are not well-formed UTF-8 (an overlong form, an encoded surrogate, a
    value above U+10FFFF, a stray or missing continuation byte). *)
Fixpoint decodeCodePoints (bs : buffer) : option (list N) :=
  match bs with
  | [] => Some []
  | b0 :: r0 =>
      if b0 <? 0x80 then option_map (cons b0) (decodeCodePoints r0)
      else if (0xC2 <=? b0) && (b0 <=? 0xDF) then
        match r0 with
        | b1 :: r1 =>
            if isContinuation b1
            then option_map (cons ((b0 - 0xC0) * 0x40 + (b1 - 0x80))) (decodeCodePoints r1)
            else None
        | _ => None
        end
      else if (0xE0 <=? b0) && (b0 <=? 0xEF) then
        match r0 with
        | b1 :: b2 :: r2 =>
            let cp := (b0 - 0xE0) * 0x1000 + (b1 - 0x80) * 0x40 + (b2 - 0x80) in
            if isContinuation b1 && isContinuation b2 && (0x800 <=? cp)
               && negb ((0xD800 <=? cp) && (cp <=? 0xDFFF))
            then option_map (cons cp) (decodeCodePoints r2)
            else None
        | _ => None
        end
      else if (0xF0 <=? b0) && (b0 <=? 0xF4) then
        match r0 with
        | b1 :: b2 :: b3 :: r3 =>
            let cp := (b0 - 0xF0) * 0x40000 + (b1 - 0x80) * 0x1000
                      + (b2 - 0x80) * 0x40 + (b3 - 0x80) in
            if isContinuation b1 && isContinuation b2 && isContinuation b3
               && (0x10000 <=? cp) && (cp <=? 0x10FFFF)
            then option_map (cons cp) (decodeCodePoints r3)
            else None
        | _ => None
        end
      else None
  end.

(** The UTF-16 code units of a code point. *)
Definition codeUnits (cp : N) : jsstring :=
  if cp <? 0x10000 then [cp]
  else [0xD800 + (cp - 0x10000) / 0x400; 0xDC00 + (cp - 0x10000) mod 0x400].

(** Decoding well-formed UTF-8 back to a string, as
    [buffer.toString()] does on such input. *)
Definition decode (bs : buffer) : option jsstring :=
  option_map (flat_map codeUnits) (decodeCodePoints bs).

(** Every element is a code unit. *)
Definition isString (s : jsstring) : bool := forallb (fun c => c <? 0x10000) s.

(** No surrogate of the string stands alone: every high surrogate is
    followed by a low one and every low surrogate follows a high one. *)
Fixpoint isWellFormed (s : jsstring) : bool :=
  match s with
  | [] => true
  | c :: r =>
      if isHighSurrogate c then
        match r with
        | d :: r' => isLowSurrogate d && isWellFormed r'
        | [] => false
        end
      else negb (isLowSurrogate c) && isWellFormed r
  end.

End Utf8.

(* ================================================================== *)
(** * The host's message (nodemailer's [Mail] types, as payload's
      [SendEmailOptions] uses them) *)

Module Mail.
Import JS.

(** [Mail.Address]. *)
Record Address : Type := mkAddress
  { address : jsstring; name : jsstring }.

(** [string | Mail.Address]. *)
Inductive AddressLike : Type :=
| AddrString (s : jsstring)
| AddrObject (a : Address).

(** [string | Mail.Address | Array<string | Mail.Address>]. *)
Inductive Addresses : Type :=
| One (a : AddressLike)
| Many (l : list AddressLike).

(** The content of an attachment: [string | Buffer | Readable]. *)
Inductive Content : Type :=
| ContentString (s : jsstring)
| ContentBuffer (b : Utf8.buffer)
| ContentStream.

(** An attachment of the message.  [filename] is
    [string | false | undefined] and [content] may be [undefined];
    [None] stands for the values that are not of the first type. *)
Record Attachment : Type := mkAttachment
  { filename : option jsstring; content : option Content }.

(** [text] and [html]: a string, or an object ([Buffer], [Readable],
    [AttachmentLike]) together with what its [toString] method returns
    ([None]: it has no such method, or the method returns [undefined]). *)
Inductive Body : Type :=
| BodyString (s : jsstring)
| BodyObject (toString : option jsstring).

(** The value of one header. *)
Inductive HeaderValue : Type :=
| HeaderString (s : jsstring)
| HeaderList (l : list jsstring)
| HeaderOther.

(** [Mail.Headers], as [Object.entries] lists it. *)
Definition Headers := list (jsstring * HeaderValue).

Record SendEmailOptions : Type := mkSendEmailOptions
  { from : option AddressLike;
    to : option Addresses;
    subject : option jsstring;
    text : option Body;
    html : option Body;
    replyTo : option Addresses;
    headers : option Headers;
    attachments : option (list Attachment) }.

End Mail.

(* ================================================================== *)
(** * The adapter *)

Module Sweego.
Import JS RegExp.

(** ** Types of [index.ts] *)

Record SweegoAdapterArgs : Type := mkArgs
  { apiKey : jsstring;
    defaultFromAddress : jsstring;
    defaultFromName : jsstring;
    dryRun : option bool }.

Record SweegoSuccess : Type := mkSuccess
  { s_channel : jsstring;
    s_provider : jsstring;
    swg_uids : list (jsstring * jsstring);
    transaction_id : jsstring }.

(** One entry of [detail].  [None] is [null] or a missing property. *)
Record DetailEntry : Type := mkDetail
  { msg : option jsstring; type : option jsstring }.

(** The [detail] property of an error body: the array the type
    declares, or one of the falsy values the code guards against. *)
Inductive DetailField : Type :=
| DetailArray (l : list DetailEntry)
| DetailUndefined
| DetailNull
| DetailFalse
| DetailZero
| DetailEmptyString.

Record SweegoError : Type := mkError { detail : DetailField }.

(** [SweegoResponse = SweegoSuccess | SweegoError]. *)
Inductive SweegoResponse : Type :=
| Success (s : SweegoSuccess)
| Error (e : SweegoError).

Record EmailAddress : Type := mkEmail
  { email : jsstring; name : option jsstring }.

Record Attachment : Type := mkAttachment
  { content : Utf8.buffer; filename : jsstring }.

(** [SweegoSendEmailOptions], with the properties the adapter sets. *)
Record SweegoSendEmailOptions : Type := mkOptions
  { dry_run : option bool;
    provider : jsstring;
    channel : jsstring;
    from : EmailAddress;
    recipients : list EmailAddress;
    reply_to : option EmailAddress;
    subject : jsstring;
    message_txt : option jsstring;
    message_html : option jsstring;
    attachments : option (list Attachment);
    headers : option (list (jsstring * jsstring)) }.

(** ** Exceptions *)

Inductive exn : Type :=
| APIError (message : jsstring) (status : N)   (* payload's APIError *)
| TypeError                                    (* a property read on undefined *)
| SyntaxError                                  (* the body is not JSON *)
| FetchError.                                  (* fetch rejected *)

Definition res (A : Type) := (exn + A)%type.
Definition ret {A : Type} (a : A) : res A := inr a.
Definition throw {A : Type} (e : exn) : res A := inl e.
Definition bind {A B : Type} (m : res A) (f : A -> res B) : res B :=
  match m with inl e => inl e | inr a => f a end.

Notation "x <- m ;; k" := (bind m (fun x => k))
  (at level 61, m at next level, right associativity).

(** [Array.prototype.map] with a callback that may throw: the first
    exception, in the order of the array, ends the loop. *)
Fixpoint mapM {A B : Type} (f : A -> res B) (l : list A) : res (list B) :=
  match l with
  | [] => ret []
  | a :: l' => b <- f a ;; bs <- mapM f l' ;; ret (b :: bs)
  end.

(** ** Address strings *)

Definition extractEmailFromAddressString (address : jsstring) : jsstring :=
  trim (replace re_email Group1 (trim address)).

Definition extractNameFromAddressString (address : jsstring) : jsstring :=
  trim (replaceAll (re_quote squote) Nothing
    (trim (replaceAll (re_quote dquote) Nothing
      (trim (replace re_name Group1 (trim address)))))).

(** The object both mapping functions build from a string. *)
Definition ofAddressString (address : jsstring) : EmailAddress :=
  {| email := extractEmailFromAddressString address;
     name := if str_eqb (extractNameFromAddressString address) address
             then None
             else Some (extractNameFromAddressString address) |}.

(** The object both mapping functions build from a [Mail.Address]. *)
Definition ofAddressObject (a : Mail.Address) : EmailAddress :=
  {| email := extractEmailFromAddressString (Mail.address a);
     name := if str_eqb (Mail.name a) (Mail.address a)
             then None
             else Some (Mail.name a) |}.

Definition mapFromAddress (address : option Mail.AddressLike)
    (defaultFromName defaultFromAddress : jsstring) : EmailAddress :=
  match address with
  | None => {| email := defaultFromAddress; name := Some defaultFromName |}
  | Some (Mail.AddrString s) =>
      if negb (truthy s)
      then {| email := defaultFromAddress; name := Some defaultFromName |}
      else ofAddressString s
  | Some (Mail.AddrObject a) => ofAddressObject a
  end.

Definition mapAddresses (addresses : option Mail.Addresses) : list EmailAddress :=
  match addresses with
  | None => []
  | Some (Mail.One (Mail.AddrString s)) =>
      if negb (truthy s) then [] else [ofAddressString s]
  | Some (Mail.Many l) =>
      List.map (fun address =>
                  match address with
                  | Mail.AddrString s => ofAddressString s
                  | Mail.AddrObject a => ofAddressObject a
                  end) l
  | Some (Mail.One (Mail.AddrObject a)) => [ofAddressObject a]
  end.

(** ** Attachments *)

Definition contentTruthy (c : option Mail.Content) : bool :=
  match c with
  | None => false
  | Some (Mail.ContentString s) => truthy s
  | Some _ => true
  end.

Definition missingMessage : jsstring := lit "Attachment is missing filename or content".
Definition contentMessage : jsstring := lit "Attachment content must be a string or a buffer".

(** The callback of [attachments.map]. *)
Definition mapAttachment (attachment : Mail.Attachment) : res Attachment :=
  if negb (truthy_opt (Mail.filename attachment))
     || negb (contentTruthy (Mail.content attachment))
  then throw (APIError missingMessage 400)
  else match Mail.filename attachment, Mail.content attachment with
       | Some name, Some (Mail.ContentString s) =>
           ret {| content := Utf8.encode s; filename := name |}
       | Some name, Some (Mail.ContentBuffer b) =>
           ret {| content := b; filename := name |}
       | _, _ => throw (APIError contentMessage 400)
       end.

Definition mapAttachments (attachments : option (list Mail.Attachment))
    : res (option (list Attachment)) :=
  match attachments with
  | None => ret None
  | Some l => r <- mapM mapAttachment l ;; ret (Some r)
  end.

(** ** Headers *)

(** An own property [key] of an object set to [value]: an existing
    property keeps its place, a new one comes last. *)
Fixpoint setProperty (key value : jsstring) (h : list (jsstring * jsstring))
    : list (jsstring * jsstring) :=
  match h with
  | [] => [(key, value)]
  | (k, v) :: h' =>
      if str_eqb k key then (k, value) :: h' else (k, v) :: setProperty key value h'
  end.

(** The assignment [sweegoHeaders[key] = value] on the object literal
    [sweegoHeaders], with a string as value.  The key [__proto__] is
    the accessor inherited from [Object.prototype]: its setter ignores a
    value that is not an object, and the object gets no property.  Every
    other key sets an own property. *)
Definition setHeader (key value : jsstring) (h : list (jsstring * jsstring))
    : list (jsstring * jsstring) :=
  if str_eqb key (lit "__proto__") then h else setProperty key value h.

Definition messageHeadersToSweegoHeaders (headers : Mail.Headers)
    : list (jsstring * jsstring) :=
  fold_left (fun sweegoHeaders kv =>
               match snd kv with
               | Mail.HeaderString s => setHeader (fst kv) s sweegoHeaders
               | Mail.HeaderList l => setHeader (fst kv) (join (lit ", ") l) sweegoHeaders
               | Mail.HeaderOther => sweegoHeaders
               end) headers [].

(** ** The body of the request *)

(** [body.toString?.() || ''] under [if (body)]; [None] when the
    property is not set. *)
Definition bodyToString (body : option Mail.Body) : option jsstring :=
  match body with
  | None => None
  | Some (Mail.BodyString s) => if truthy s then Some s else None
  | Some (Mail.BodyObject (Some s)) => Some s
  | Some (Mail.BodyObject None) => Some []
  end.

(** The block under [if (message.replyTo)].  A string other than the
    literal the first test compares with is not an array either, and
    reaches the last branch, where [address] is read from it and
    [trim] is called on [undefined]. *)
Definition mapReplyTo (replyTo : option Mail.Addresses) : res (option EmailAddress) :=
  match replyTo with
  | None => ret None
  | Some (Mail.One (Mail.AddrString s)) =>
      if negb (truthy s) then ret None
      else if str_eqb s (lit "string") then ret (Some (ofAddressString s))
      else throw TypeError
  | Some (Mail.Many l) =>
      match mapAddresses (Some (Mail.Many l)) with
      | [] => ret None
      | a :: _ => ret (Some a)
      end
  | Some (Mail.One (Mail.AddrObject a)) => ret (Some (ofAddressObject a))
  end.

Definition mapPayloadEmailToSweegoEmail (message : Mail.SendEmailOptions)
    (defaultFromAddress defaultFromName : jsstring) (dryRun : option bool)
    : res SweegoSendEmailOptions :=
  mapped <- mapAttachments (Mail.attachments message) ;;
  let recipients := mapAddresses (Mail.to message) in
  let from := mapFromAddress (Mail.from message) defaultFromName defaultFromAddress in
  reply <- mapReplyTo (Mail.replyTo message) ;;
  ret {| provider := lit "sweego";
         channel := lit "email";
         recipients := recipients;
         from := from;
         subject := match Mail.subject message with Some s => s | None => [] end;
         attachments := match mapped with
                        | Some (a :: l) => Some (a :: l)
                        | _ => None
                        end;
         dry_run := match dryRun with Some true => Some true | _ => None end;
         headers := option_map messageHeadersToSweegoHeaders (Mail.headers message);
         message_txt := bodyToString (Mail.text message);
         message_html := bodyToString (Mail.html message);
         reply_to := reply |}.

(** ** Transport *)

Record Request : Type := mkRequest
  { url : jsstring;
    method : jsstring;
    request_headers : list (jsstring * jsstring);
    request_body : SweegoSendEmailOptions }.

(** What [fetch] resolves to.  [json] is the body as [res.json()]
    parses it, [None] when it is not JSON. *)
Record Response : Type := mkResponse
  { status : N;
    statusText : jsstring;
    json : option SweegoResponse }.

(** The world the adapter talks to: what [fetch] answers to a request. *)
Definition network := Request -> res Response.

(** [data.detail || []]. *)
Definition detailOrEmpty (data : SweegoResponse) : list DetailEntry :=
  match data with
  | Error {| detail := DetailArray l |} => l
  | _ => []
  end.

(** The body of the [forEach] callback: the message after the entry
    at index [idx]. *)
Definition appendDetail (formattedError : jsstring) (idx : nat) (entry : DetailEntry)
    : jsstring :=
  match type entry, msg entry with
  | Some ty, Some m =>
      if truthy ty && truthy m then
        formattedError
        ++ (if negb (idx =? 0)%nat then lit "; " else lit " ")
        ++ (if truthy ty && negb (str_eqb ty (lit "null"))
            then lit "Type: " ++ [dquote] ++ ty ++ [dquote] ++ lit ", "
            else [])
        ++ lit "Message: " ++ [dquote] ++ m ++ [dquote]
      else formattedError
  | _, _ => formattedError
  end.

(** [Array.prototype.forEach] with a callback that updates a variable
    of the enclosing scope. *)
Fixpoint forEach {A St : Type} (f : St -> nat -> A -> St) (idx : nat) (l : list A)
    (st : St) : St :=
  match l with
  | [] => st
  | x :: l' => forEach f (S idx) l' (f st idx x)
  end.

Definition formatError (status : N) (statusText : jsstring) (data : SweegoResponse)
    : jsstring :=
  let formattedError :=
    lit "Error sending email: " ++ numberToString status ++ lit " " ++ statusText ++ lit "." in
  forEach appendDetail 0 (detailOrEmpty data) formattedError.

Definition sendRequest (apiKey : jsstring) (sendEmailOptions : SweegoSendEmailOptions)
    : Request :=
  {| url := lit "https://api.sweego.io/send";
     method := lit "POST";
     request_headers := [(lit "Api-Key", apiKey); (lit "Content-Type", lit "application/json")];
     request_body := sendEmailOptions |}.

(** [sendEmail] of the adapter built from [args]: the requests it
    posted, in order, and its outcome. *)
Definition sendEmail (args : SweegoAdapterArgs) (fetch : network)
    (message : Mail.SendEmailOptions) : list Request * res SweegoResponse :=
  match mapPayloadEmailToSweegoEmail message (defaultFromAddress args)
          (defaultFromName args) (dryRun args) with
  | inl e => ([], inl e)
  | inr sendEmailOptions =>
      let request := sendRequest (apiKey args) sendEmailOptions in
      ([request],
       response <- fetch request ;;
       match json response with
       | None => throw SyntaxError
       | Some data =>
           if (status response =? 200)%N then ret data
           else throw (APIError (formatError (status response) (statusText response) data)
                                (status response))
       end)
  end.

End Sweego.

(* ================================================================== *)
(** * Reference definitions

    What the documentation says of the adapter, written as functions to
    compare the code with. *)

Module Spec.
Import JS RegExp Sweego.

(** An entry of [detail] with a non-empty [type] and a non-empty [msg]. *)
Definition complete (e : DetailEntry) : bool :=
  truthy_opt (type e) && truthy_opt (msg e).

(** The text of a complete entry after its separator: the [Type]
    segment, left out for the type spelled null, and the [Message]
    segment. *)
Definition entryText (e : DetailEntry) : jsstring :=
  match type e, msg e with
  | Some ty, Some m =>
      (if str_eqb ty (lit "null") then []
       else lit "Type: " ++ [dquote] ++ ty ++ [dquote] ++ lit ", ")
      ++ lit "Message: " ++ [dquote] ++ m ++ [dquote]
  | _, _ => []
  end.

(** Separator chosen by the index of the entry in [detail]: a space
    at index 0, a semicolon and a space at every later index. *)
Fixpoint detailTexts (idx : nat) (l : list DetailEntry) : jsstring :=
  match l with
  | [] => []
  | e :: l' =>
      (if complete e
       then (match idx with O => lit " " | S _ => lit "; " end) ++ entryText e
       else [])
      ++ detailTexts (S idx) l'
  end.

(** Separator chosen by the entries appended so far: a space before
    the first appended entry, a semicolon and a space before the later
    ones. *)
Fixpoint appendedTexts (first : bool) (l : list DetailEntry) : jsstring :=
  match l with
  | [] => []
  | e :: l' =>
      if complete e
      then (if first then lit " " else lit "; ") ++ entryText e ++ appendedTexts false l'
      else appendedTexts first l'
  end.

Definition heading (status : N) (statusText : jsstring) : jsstring :=
  lit "Error sending email: " ++ numberToString status ++ lit " " ++ statusText ++ lit ".".

(** A body without a usable [detail]: the property is absent (as in a
    body of the success shape), null or another falsy value. *)
Definition lacksDetail (data : SweegoResponse) : bool :=
  match data with
  | Error {| detail := DetailArray _ |} => false
  | _ => true
  end.

(** An attachment the mapping refuses: no filename, no content, or a
    content that is neither a string nor a buffer. *)
Definition refused (a : Mail.Attachment) : bool :=
  negb (truthy_opt (Mail.filename a))
  || negb (contentTruthy (Mail.content a))
  || match Mail.content a with
     | Some Mail.ContentStream => true
     | _ => false
     end.

(** The wire attachment [b] is what attachment [a] of the message
    becomes: same filename, a string content encoded, a buffer content
    unchanged. *)
Definition carried (a : Mail.Attachment) (b : Attachment) : Prop :=
  Mail.filename a = Some (filename b) /\
  match Mail.content a with
  | Some (Mail.ContentString s) => content b = Utf8.encode s
  | Some (Mail.ContentBuffer buf) => content b = buf
  | _ => False
  end.

(** The string starts with [c]; the string ends with [c]. *)
Definition startsWith (c : N) (s : jsstring) : bool :=
  match s with x :: _ => (x =? c)%N | [] => false end.

Fixpoint endsWith (c : N) (s : jsstring) : bool :=
  match s with
  | [] => false
  | [x] => (x =? c)%N
  | _ :: s' => endsWith c s'
  end.

(** The two messages of an invalid attachment. *)
Definition invalidAttachmentMessage (m : jsstring) : Prop :=
  m = missingMessage \/ m = contentMessage.

End Spec.

(* ================================================================== *)
(** * Examples and auxiliary definitions *)

Import JS RegExp Sweego.

(** ** The scenarios of the test suite *)

Definition exampleArgs : SweegoAdapterArgs :=
  {| apiKey := lit "test-api-key";
     defaultFromAddress := lit "hello+default@zapal.tech";
     defaultFromName := lit "Zapal";
     dryRun := Some true |}.

Definition exampleMessage : Mail.SendEmailOptions :=
  {| Mail.from := Some (Mail.AddrString
                    ([dquote] ++ lit "Zapal" ++ [dquote] ++ lit " <hello+from@zapal.tech>"));
     Mail.to := Some (Mail.One (Mail.AddrString
                    ([dquote] ++ lit "Zapal" ++ [dquote] ++ lit " <hello+to@zapal.tech>")));
     Mail.subject := Some (lit "This was sent on init");
     Mail.text := Some (Mail.BodyString (lit "This is my message body"));
     Mail.html := Some (Mail.BodyString (lit "<p>This is my message body</p>"));
     Mail.replyTo := None;
     Mail.headers := None;
     Mail.attachments := None |}.

Definition examplePayload : SweegoSendEmailOptions :=
  {| provider := lit "sweego";
     channel := lit "email";
     from := {| email := lit "hello+from@zapal.tech"; name := Some (lit "Zapal") |};
     recipients := [{| email := lit "hello+to@zapal.tech"; name := Some (lit "Zapal") |}];
     subject := lit "This was sent on init";
     message_txt := Some (lit "This is my message body");
     message_html := Some (lit "<p>This is my message body</p>");
     dry_run := Some true;
     reply_to := None;
     attachments := None;
     headers := None |}.

(** The vendor's answer of the 422 scenario. *)
Definition rejected422 : Response :=
  {| status := 422;
     statusText := lit "Unprocessable Entity";
     json := Some (Error {| detail := DetailArray
               [{| msg := Some (lit "bad field"); type := Some (lit "validation_error") |}] |}) |}.

Definition message422 : jsstring :=
  lit "Error sending email: 422 Unprocessable Entity. Type: " ++ [dquote]
  ++ lit "validation_error" ++ [dquote] ++ lit ", Message: " ++ [dquote]
  ++ lit "bad field" ++ [dquote].

(** An answer whose first entry has a null type and whose second entry
    is complete. *)
Definition secondOnly : list DetailEntry :=
  [{| msg := Some (lit "bad field"); type := None |};
   {| msg := Some (lit "too long"); type := Some (lit "value_error") |}].

Definition rejectedSecondOnly : Response :=
  {| status := 422;
     statusText := lit "Unprocessable Entity";
     json := Some (Error {| detail := DetailArray secondOnly |}) |}.

(** An answer without [detail]. *)
Definition rejectedBare : Response :=
  {| status := 500;
     statusText := lit "Internal Server Error";
     json := Some (Error {| detail := DetailNull |}) |}.

(** A message with two attachments that are sent, and one whose second
    attachment has no filename. *)
Definition goodAttachments : list Mail.Attachment :=
  [{| Mail.filename := Some (lit "notes.txt");
      Mail.content := Some (Mail.ContentString (lit "hello")) |};
   {| Mail.filename := Some (lit "logo.png");
      Mail.content := Some (Mail.ContentBuffer [137; 80; 78; 71]%N) |}].

Definition badAttachments : list Mail.Attachment :=
  [{| Mail.filename := Some (lit "notes.txt");
      Mail.content := Some (Mail.ContentString (lit "hello")) |};
   {| Mail.filename := None;
      Mail.content := Some (Mail.ContentString (lit "orphan")) |}].

Definition withAttachments (l : list Mail.Attachment) : Mail.SendEmailOptions :=
  {| Mail.from := Mail.from exampleMessage;
     Mail.to := Mail.to exampleMessage;
     Mail.subject := Mail.subject exampleMessage;
     Mail.text := Mail.text exampleMessage;
     Mail.html := Mail.html exampleMessage;
     Mail.replyTo := Mail.replyTo exampleMessage;
     Mail.headers := Mail.headers exampleMessage;
     Mail.attachments := Some l |}.

(** An attachment with a filename and a zero-byte string content. *)
Definition emptyAttachment : Mail.Attachment :=
  {| Mail.filename := Some (lit "empty.txt");
     Mail.content := Some (Mail.ContentString []) |}.

(** A message without [from]. *)
Definition anonymousMessage : Mail.SendEmailOptions :=
  {| Mail.from := None;
     Mail.to := Some (Mail.One (Mail.AddrString (lit "hello+to@zapal.tech")));
     Mail.subject := Some (lit "This was sent on init");
     Mail.text := Some (Mail.BodyString (lit "This is my message body"));
     Mail.html := None;
     Mail.replyTo := None;
     Mail.headers := None;
     Mail.attachments := None |}.

(** A message whose reply-to is a plain address string. *)
Definition replyToStringMessage : Mail.SendEmailOptions :=
  {| Mail.from := Mail.from exampleMessage;
     Mail.to := Mail.to exampleMessage;
     Mail.subject := Mail.subject exampleMessage;
     Mail.text := Mail.text exampleMessage;
     Mail.html := Mail.html exampleMessage;
     Mail.replyTo := Some (Mail.One (Mail.AddrString (lit "reply@zapal.tech")));
     Mail.headers := None;
     Mail.attachments := None |}.

(** The vendor's answer of the 200 scenario. *)
Definition accepted200 : Response :=
  {| status := 200;
     statusText := lit "OK";
     json := Some (Success {| s_channel := lit "email";
                              s_provider := lit "sweego";
                              swg_uids := [];
                              transaction_id := lit "abc123" |}) |}.

(** The continuations the matcher builds for the pattern of
    [extractEmailFromAddressString]: what follows the first greedy run
    (the less-than sign, then group 1), and what follows the run inside
    the group (the greater-than sign, which ends the match). *)
Definition afterGroup (opening : nat) : nat -> jsstring -> option result :=
  fun pos inp =>
    match inp with
    | y :: _ =>
        if (y =? gt_sign)%N
        then Some (S pos, mkCaptures opening (Some (opening, pos)))
        else None
    | [] => None
    end.

Definition fromBracket : nat -> jsstring -> option result :=
  fun pos inp =>
    match inp with
    | x :: inp' =>
        if (x =? lt_sign)%N then star (afterGroup (S pos)) (S pos) inp' else None
    | [] => None
    end.

(** No element of the string is a line terminator. *)
Definition singleLine (s : jsstring) : Prop :=
  forall x, In x s -> isLineTerminator x = false.

(** What the global quote patterns leave of a string: the string
    without its last character when that is the quote, and the string
    without a quote at its start and without a quote at its end. *)
Fixpoint dropLastQuote (q : N) (s : jsstring) : jsstring :=
  match s with
  | [] => []
  | x :: s' =>
      match s' with
      | [] => if (x =? q)%N then [] else [x]
      | _ :: _ => x :: dropLastQuote q s'
      end
  end.

Definition stripQuotes (q : N) (s : jsstring) : jsstring :=
  match s with
  | [] => []
  | x :: s' => if (x =? q)%N then dropLastQuote q s' else x :: dropLastQuote q s'
  end.

(** Address strings of the examples. *)
Definition twoGroups : jsstring := lit "a <x@y> <z@w>".
Definition paddedAddress : jsstring := lit " hello@zapal.tech ".
Definition bareAddress : jsstring := lit "hello@zapal.tech".
Definition namedAddress : jsstring := lit " Zapal <hello@zapal.tech> ".

(** A structured address whose [address] carries a display name and
    brackets. *)
Definition bracketedObject : Mail.Address :=
  {| Mail.address := lit "Zapal <hello@zapal.tech>"; Mail.name := lit "Zapal" |}.

Definition plainObject : Mail.Address :=
  {| Mail.address := lit "hello@zapal.tech"; Mail.name := lit "Zapal" |}.

Unset Implicit Arguments.

(** A Unicode scalar value: a code point that is not a surrogate. *)
Definition isScalar (cp : N) : bool :=
  (cp <? 0x110000)%N && negb ((0xD800 <=? cp)%N && (cp <=? 0xDFFF)%N).

(** Attachments with a string content: plain text, and a string made of
    one high surrogate that no low surrogate follows. *)
Definition textAttachment : Mail.Attachment :=
  {| Mail.filename := Some (lit "notes.txt");
     Mail.content := Some (Mail.ContentString (lit "hello")) |}.

Definition loneSurrogate : jsstring := [0xD800%N].

Definition surrogateAttachment : Mail.Attachment :=
  {| Mail.filename := Some (lit "notes.txt");
     Mail.content := Some (Mail.ContentString loneSurrogate) |}.

(** Arithmetic with division by a constant, for the bytes of UTF-8. *)
Ltac Zify.zify_post_hook ::= Z.to_euclidean_division_equations.

(** Settle every comparison of the goal that linear arithmetic decides. *)
Ltac settle_tests :=
  repeat match goal with
    | |- context [(?a <? ?b)%N] =>
        first [ replace (a <? b)%N with true by (symmetry; apply N.ltb_lt; lia)
              | replace (a <? b)%N with false by (symmetry; apply N.ltb_ge; lia) ]
    | |- context [(?a <=? ?b)%N] =>
        first [ replace (a <=? b)%N with true by (symmetry; apply N.leb_le; lia)
              | replace (a <=? b)%N with false by (symmetry; apply N.leb_gt; lia) ]
    end;
  cbn [andb orb negb].

(** ** Further examples *)

(** A rejected answer with two complete entries. *)
Definition twoComplete : list DetailEntry :=
  [{| msg := Some (lit "bad field"); type := Some (lit "validation_error") |};
   {| msg := Some (lit "too long"); type := Some (lit "value_error") |}].

Definition rejectedTwoComplete : Response :=
  {| status := 422;
     statusText := lit "Unprocessable Entity";
     json := Some (Error {| detail := DetailArray twoComplete |}) |}.

(** The continuations the matcher builds for the pattern of
    [extractNameFromAddressString], whose group opens at [opening]:
    what follows the greedy run of the group (the less-than sign and a
    second greedy run), and what follows that run (the greater-than
    sign, which ends the match) when the group closed at [closing]. *)
Definition nameClose (opening closing : nat) : nat -> jsstring -> option result :=
  fun pos inp =>
    match inp with
    | y :: _ =>
        if (y =? gt_sign)%N
        then Some (S pos, mkCaptures opening (Some (opening, closing)))
        else None
    | [] => None
    end.

Definition nameBracket (opening : nat) : nat -> jsstring -> option result :=
  fun pos inp =>
    match inp with
    | x :: inp' =>
        if (x =? lt_sign)%N then star (nameClose opening pos) (S pos) inp' else None
    | [] => None
    end.

(** The address string of the test suite's form: a quoted display
    name, a space, and the address in angle brackets. *)
Definition quotedForm (displayName address : jsstring) : jsstring :=
  [dquote] ++ displayName ++ [dquote] ++ lit " <" ++ address ++ lit ">".

(** A string of white space only. *)
Definition blankAddress : jsstring := lit "   ".

(** What one header of the message contributes to the headers of the
    payload: a string value as it is, a list joined by a comma and a
    space, nothing for a value of another kind and nothing for the key
    [__proto__]. *)
Definition keptHeader (kv : jsstring * Mail.HeaderValue) : list (jsstring * jsstring) :=
  if str_eqb (fst kv) (lit "__proto__") then []
  else match snd kv with
       | Mail.HeaderString s => [(fst kv, s)]
       | Mail.HeaderList l => [(fst kv, join (lit ", ") l)]
       | Mail.HeaderOther => []
       end.

Definition exampleHeaders : Mail.Headers :=
  [(lit "X-Campaign", Mail.HeaderString (lit "init"));
   (lit "X-Prepared", Mail.HeaderOther);
   (lit "__proto__", Mail.HeaderString (lit "x"));
   (lit "X-Tags", Mail.HeaderList [lit "a"; lit "b"])].

(** Every element is below 128: a string of ASCII characters. *)
Definition isAscii (s : jsstring) : bool := forallb (fun c => (c <? 0x80)%N) s.

(** Every element is a byte. *)
Definition isBytes (b : Utf8.buffer) : bool := forallb (fun x => (x <? 256)%N) b.

(** A string content made of plain text and an emoji written as a
    surrogate pair. *)
Definition emojiText : jsstring := lit "ok " ++ [0xD83D; 0xDE00]%N.

(** The message of the error an attachment is refused with: the one
    about the kind of content when the attachment has a non-empty
    filename and a content that is neither a string nor a buffer, the
    one about a missing filename or content otherwise. *)
Definition refusalMessage (a : Mail.Attachment) : jsstring :=
  match Mail.content a with
  | Some Mail.ContentStream =>
      if truthy_opt (Mail.filename a) then contentMessage else missingMessage
  | _ => missingMessage
  end.

(** An attachment whose content is a stream, and a list in which it
    comes before an attachment without filename. *)
Definition streamAttachment : Mail.Attachment :=
  {| Mail.filename := Some (lit "video.mp4"); Mail.content := Some Mail.ContentStream |}.

Definition mixedAttachments : list Mail.Attachment :=
  [textAttachment; streamAttachment;
   {| Mail.filename := None; Mail.content := Some (Mail.ContentString (lit "orphan")) |}].

(** The bytes [bytes] are a binary encoding of the string [s]: every
    element is a byte, decoding them as UTF-8 gives a string of the
    length of [s], and gives [s] itself when [s] has no unpaired
    surrogate. *)
Definition binaryOf (s : jsstring) (bytes : Utf8.buffer) : Prop :=
  isBytes bytes = true
  /\ (exists s', Utf8.decode bytes = Some s' /\ length s' = length s)
  /\ (Utf8.isWellFormed s = true -> Utf8.decode bytes = Some s).

(** The content of the wire attachment [b] is a binary encoding of the
    string content of [a], when [a] has one. *)
Definition encodedContent (a : Mail.Attachment) (b : Attachment) : Prop :=
  match Mail.content a with
  | Some (Mail.ContentString s) => Utf8.isString s = true -> binaryOf s (content b)
  | _ => True
  end.

(** An attachment whose content is the euro sign, one code unit that
    is not a byte, and a list with it and a buffer. *)
Definition euroAttachment : Mail.Attachment :=
  {| Mail.filename := Some (lit "price.txt");
     Mail.content := Some (Mail.ContentString [0x20AC%N]) |}.

Definition euroAttachments : list Mail.Attachment :=
  [euroAttachment;
   {| Mail.filename := Some (lit "logo.png");
      Mail.content := Some (Mail.ContentBuffer [137; 80; 78; 71]%N) |}].

(* ================================================================== *)
(** * Properties *)

(** ** First checks *)

Example payload_of_example :
  mapPayloadEmailToSweegoEmail exampleMessage (defaultFromAddress exampleArgs)
    (defaultFromName exampleArgs) (dryRun exampleArgs) = inr examplePayload.
Proof. vm_compute. reflexivity. Qed.

Example send_example_rejected :
  sendEmail exampleArgs (fun _ => inr rejected422) exampleMessage
  = ([sendRequest (apiKey exampleArgs) examplePayload], inl (APIError message422 422)).
Proof. vm_compute. reflexivity. Qed.
Example send_example_accepted :
  sendEmail exampleArgs (fun _ => inr accepted200) exampleMessage
  = ([sendRequest (apiKey exampleArgs) examplePayload],
     inr (Success {| s_channel := lit "email"; s_provider := lit "sweego";
                     swg_uids := []; transaction_id := lit "abc123" |})).
Proof. vm_compute. reflexivity. Qed.

Example email_of_two_groups : replace re_email Group1 (lit "a <x@y> <z@w>") = lit "z@w".
Proof. vm_compute. reflexivity. Qed.
Example email_keeps_tail : replace re_email Group1 (lit "a <x@y> tail") = lit "x@y tail".
Proof. vm_compute. reflexivity. Qed.
Example name_keeps_tail : replace re_name Group1 (lit "Zapal <x@y> tail") = lit "Zapal  tail".
Proof. vm_compute. reflexivity. Qed.
Example quotes_stripped :
  replaceAll (re_quote dquote) Nothing (dquote :: lit "Zapal" ++ [dquote]) = lit "Zapal".
Proof. vm_compute. reflexivity. Qed.
Example status_printed : numberToString 422 = lit "422".
Proof. vm_compute. reflexivity. Qed.
Example trim_both_ends : trim (lit "  a b  ") = lit "a b".
Proof. vm_compute. reflexivity. Qed.
Example email_last_closed_group : replace re_email Group1 (lit "a<b>c<d") = lit "bc<d".
Proof. vm_compute. reflexivity. Qed.
Example email_greedy_close : replace re_email Group1 (lit "a<b>c>d") = lit "b>cd".
Proof. vm_compute. reflexivity. Qed.

(** ** Strings *)

Lemma str_eqb_eq (a b : jsstring) : str_eqb a b = true <-> a = b.
Proof.
  revert b; induction a as [|x a IH]; intros [|y b]; simpl; split;
    try congruence; try reflexivity.
  - intros H. apply andb_true_iff in H as [Hx Hr].
    apply N.eqb_eq in Hx. apply IH in Hr. congruence.
  - intros H. injection H as -> ->. rewrite N.eqb_refl. simpl. now apply IH.
Qed.

Lemma str_eqb_refl (a : jsstring) : str_eqb a a = true.
Proof. now apply str_eqb_eq. Qed.

Lemma str_eqb_neq (a b : jsstring) : str_eqb a b = false <-> a <> b.
Proof.
  split.
  - intros H E. apply str_eqb_eq in E. congruence.
  - intros H. destruct (str_eqb a b) eqn:E; [|reflexivity].
    apply str_eqb_eq in E. contradiction.
Qed.

(** ** The error message of a rejected send *)

Lemma appendDetail_text (acc : jsstring) (idx : nat) (e : DetailEntry) :
  appendDetail acc idx e
  = acc ++ (if Spec.complete e
            then (match idx with O => lit " " | S _ => lit "; " end) ++ Spec.entryText e
            else []).
Proof.
  unfold appendDetail, Spec.complete, Spec.entryText.
  destruct (type e) as [ty|], (msg e) as [m|]; simpl;
    try (now rewrite app_nil_r).
  - destruct (truthy ty) eqn:Hty; simpl; [|now rewrite app_nil_r].
    destruct (truthy m); simpl; [|now rewrite app_nil_r].
    destruct idx; simpl; destruct (str_eqb ty (lit "null")); simpl;
      rewrite <- ?app_assoc; reflexivity.
  - destruct (truthy ty); simpl; now rewrite app_nil_r.
Qed.

Lemma forEach_appendDetail (l : list DetailEntry) :
  forall idx acc, forEach appendDetail idx l acc = acc ++ Spec.detailTexts idx l.
Proof.
  induction l as [|e l IH]; intros idx acc; simpl.
  - now rewrite app_nil_r.
  - rewrite IH, appendDetail_text, <- app_assoc. reflexivity.
Qed.

Lemma formatError_texts (st : N) (stText : jsstring) (data : SweegoResponse) :
  formatError st stText data
  = Spec.heading st stText ++ Spec.detailTexts 0 (detailOrEmpty data).
Proof. unfold formatError. now rewrite forEach_appendDetail. Qed.

(** What [sendEmail] does once the payload is assembled and [fetch]
    has answered with a status other than 200 and a JSON body. *)
Lemma sendEmail_rejected (args : SweegoAdapterArgs) (fetch : network)
    (message : Mail.SendEmailOptions) (payload : SweegoSendEmailOptions)
    (response : Response) (data : SweegoResponse) :
  mapPayloadEmailToSweegoEmail message (defaultFromAddress args)
    (defaultFromName args) (dryRun args) = inr payload ->
  fetch (sendRequest (apiKey args) payload) = inr response ->
  status response <> 200%N ->
  json response = Some data ->
  sendEmail args fetch message
  = ([sendRequest (apiKey args) payload],
     inl (APIError (formatError (status response) (statusText response) data)
                   (status response))).
Proof.
  intros Hmap Hfetch Hst Hjson. unfold sendEmail. rewrite Hmap, Hfetch. simpl.
  rewrite Hjson. apply N.eqb_neq in Hst. rewrite Hst. reflexivity.
Qed.

Lemma detailTexts_later (l : list DetailEntry) :
  forall idx, Spec.detailTexts (S idx) l = Spec.appendedTexts false l.
Proof.
  induction l as [|e l IH]; intros idx; [reflexivity|].
  cbn [Spec.detailTexts Spec.appendedTexts].
  rewrite IH. destruct (Spec.complete e); [|reflexivity].
  now rewrite <- app_assoc.
Qed.

Lemma detailTexts_first_complete (e : DetailEntry) (l : list DetailEntry) :
  Spec.complete e = true ->
  Spec.detailTexts 0 (e :: l) = Spec.appendedTexts true (e :: l).
Proof.
  intros H. cbn [Spec.detailTexts Spec.appendedTexts].
  rewrite H, detailTexts_later. now rewrite <- app_assoc.
Qed.

(** C1 (as amended).  When the vendor answers with a status other than
    200 and a body whose [detail] is an array of entries, [sendEmail]
    posts its one request and fails with an [APIError] that carries the
    HTTP status and the message [Error sending email: <status>
    <statusText>.] followed, for every entry with a non-empty type and a
    non-empty msg, by a separator chosen from the index of the entry in
    [detail] (one space at index 0, a semicolon and a space at every
    later index), the [Type] segment (left out when the type is the
    string null) and the [Message] segment; the other entries add
    nothing.  When the entry at index 0 is itself appended, this is the
    message with one space before the first appended entry and a
    semicolon and a space before the later ones.  The 422 scenario gives
    the documented message. *)
Theorem rejected_send_message (args : SweegoAdapterArgs) (fetch : network)
    (message : Mail.SendEmailOptions) (payload : SweegoSendEmailOptions)
    (response : Response) (entries : list DetailEntry) :
  mapPayloadEmailToSweegoEmail message (defaultFromAddress args)
    (defaultFromName args) (dryRun args) = inr payload ->
  fetch (sendRequest (apiKey args) payload) = inr response ->
  status response <> 200%N ->
  json response = Some (Error {| detail := DetailArray entries |}) ->
  sendEmail args fetch message
  = ([sendRequest (apiKey args) payload],
     inl (APIError (Spec.heading (status response) (statusText response)
                    ++ Spec.detailTexts 0 entries)
                   (status response)))
  /\ (forall e rest, entries = e :: rest -> Spec.complete e = true ->
      snd (sendEmail args fetch message)
      = inl (APIError (Spec.heading (status response) (statusText response)
                       ++ Spec.appendedTexts true entries)
                      (status response)))
  /\ (response = rejected422 ->
      snd (sendEmail args fetch message) = inl (APIError message422 422)).
Proof.
  intros Hmap Hfetch Hst Hjson.
  pose proof (sendEmail_rejected args fetch message payload response _
                Hmap Hfetch Hst Hjson) as H.
  rewrite formatError_texts in H. cbn [detailOrEmpty] in H.
  split; [exact H|]. split.
  - intros e rest -> He. rewrite H. cbn [snd].
    now rewrite detailTexts_first_complete.
  - intros ->. rewrite H. cbn [json rejected422] in Hjson. injection Hjson as <-.
    vm_compute. reflexivity.
Qed.

Lemma rejected_send_message_witness :
  sendEmail exampleArgs (fun _ => inr rejected422) exampleMessage
  = ([sendRequest (apiKey exampleArgs) examplePayload],
     inl (APIError message422 422)).
Proof.
  pose proof (rejected_send_message exampleArgs (fun _ => inr rejected422) exampleMessage
                examplePayload rejected422
                [{| msg := Some (lit "bad field"); type := Some (lit "validation_error") |}])
    as H.
  destruct H as (H & _ & _).
  - vm_compute. reflexivity.
  - reflexivity.
  - vm_compute. discriminate.
  - reflexivity.
  - rewrite H. vm_compute. reflexivity.
Defined.

(** C1, the claim as stated fails: with a first entry that is skipped
    (null type) and a complete second entry, the code separates the
    second entry with a semicolon and a space, not with the single
    space the claim gives to the first appended entry. *)
Lemma rejected_send_separator_counterexample :
  snd (sendEmail exampleArgs (fun _ => inr rejectedSecondOnly) exampleMessage)
  = inl (APIError (lit "Error sending email: 422 Unprocessable Entity.; Type: "
                   ++ [dquote] ++ lit "value_error" ++ [dquote] ++ lit ", Message: "
                   ++ [dquote] ++ lit "too long" ++ [dquote]) 422)
  /\ snd (sendEmail exampleArgs (fun _ => inr rejectedSecondOnly) exampleMessage)
     <> inl (APIError (Spec.heading 422 (lit "Unprocessable Entity")
                       ++ Spec.appendedTexts true secondOnly) 422).
Proof. split; [vm_compute; reflexivity | vm_compute; discriminate]. Qed.

(** C10.  When the vendor answers with a status other than 200 and a
    JSON body whose [detail] is absent, null or another falsy value,
    [sendEmail] fails with an [APIError] whose message is exactly
    [Error sending email: <status> <statusText>.] and whose status is
    the HTTP status. *)
Theorem rejected_send_without_detail (args : SweegoAdapterArgs) (fetch : network)
    (message : Mail.SendEmailOptions) (payload : SweegoSendEmailOptions)
    (response : Response) (data : SweegoResponse) :
  mapPayloadEmailToSweegoEmail message (defaultFromAddress args)
    (defaultFromName args) (dryRun args) = inr payload ->
  fetch (sendRequest (apiKey args) payload) = inr response ->
  status response <> 200%N ->
  json response = Some data ->
  Spec.lacksDetail data = true ->
  sendEmail args fetch message
  = ([sendRequest (apiKey args) payload],
     inl (APIError (lit "Error sending email: " ++ numberToString (status response)
                    ++ lit " " ++ statusText response ++ lit ".")
                   (status response))).
Proof.
  intros Hmap Hfetch Hst Hjson Hlack.
  rewrite (sendEmail_rejected args fetch message payload response _ Hmap Hfetch Hst Hjson).
  unfold formatError.
  assert (detailOrEmpty data = []) as ->.
  { destruct data as [s|[[l| | | | |]]]; simpl in *; congruence. }
  reflexivity.
Qed.

Lemma rejected_send_without_detail_witness :
  sendEmail exampleArgs (fun _ => inr rejectedBare) exampleMessage
  = ([sendRequest (apiKey exampleArgs) examplePayload],
     inl (APIError (lit "Error sending email: " ++ numberToString 500
                    ++ lit " " ++ lit "Internal Server Error" ++ lit ".") 500)).
Proof.
  apply (@rejected_send_without_detail exampleArgs (fun _ => inr rejectedBare)
           exampleMessage examplePayload rejectedBare (Error {| detail := DetailNull |})).
  - vm_compute. reflexivity.
  - reflexivity.
  - vm_compute. discriminate.
  - reflexivity.
  - reflexivity.
Defined.

(** ** Attachments *)

Lemma sendEmail_mapping_failure (args : SweegoAdapterArgs) (fetch : network)
    (message : Mail.SendEmailOptions) (e : exn) :
  mapPayloadEmailToSweegoEmail message (defaultFromAddress args)
    (defaultFromName args) (dryRun args) = inl e ->
  sendEmail args fetch message = ([], inl e).
Proof. intros H. unfold sendEmail. now rewrite H. Qed.

Lemma mapPayload_attachment_failure (message : Mail.SendEmailOptions)
    (a n : jsstring) (d : option bool) (e : exn) :
  mapAttachments (Mail.attachments message) = inl e ->
  mapPayloadEmailToSweegoEmail message a n d = inl e.
Proof. intros H. unfold mapPayloadEmailToSweegoEmail. now rewrite H. Qed.

Lemma mapAttachment_refused (a : Mail.Attachment) :
  Spec.refused a = true ->
  exists m, Spec.invalidAttachmentMessage m /\ mapAttachment a = inl (APIError m 400).
Proof.
  unfold Spec.refused, mapAttachment, Spec.invalidAttachmentMessage. intros H.
  destruct (negb (truthy_opt (Mail.filename a)) || negb (contentTruthy (Mail.content a)))
    eqn:Hguard.
  - exists missingMessage. split; [now left | reflexivity].
  - simpl in H. exists contentMessage. split; [now right|].
    destruct (Mail.content a) as [[s|b|]|]; try discriminate.
    now destruct (Mail.filename a).
Qed.

Lemma mapAttachment_accepted (a : Mail.Attachment) :
  Spec.refused a = false ->
  exists b, mapAttachment a = inr b /\ Spec.carried a b.
Proof.
  unfold Spec.refused, mapAttachment, Spec.carried. intros H.
  apply orb_false_iff in H as [Hguard Hkind]. rewrite Hguard.
  destruct (Mail.filename a) as [fn|]; [|discriminate].
  destruct (Mail.content a) as [[s|b|]|]; try discriminate.
  - eexists. split; [reflexivity|]. simpl. auto.
  - eexists. split; [reflexivity|]. simpl. auto.
  - simpl in Hguard. now rewrite orb_true_r in Hguard.
Qed.

Lemma mapM_refused (l : list Mail.Attachment) :
  existsb Spec.refused l = true ->
  exists m, Spec.invalidAttachmentMessage m /\ mapM mapAttachment l = inl (APIError m 400).
Proof.
  induction l as [|a l IH]; simpl; [discriminate|].
  destruct (Spec.refused a) eqn:Ha; simpl.
  - intros _. destruct (mapAttachment_refused a Ha) as (m & Hm & ->).
    exists m. split; [assumption | reflexivity].
  - intros H. destruct (IH H) as (m & Hm & Hl).
    destruct (mapAttachment_accepted a Ha) as (b & -> & _).
    exists m. split; [assumption|]. simpl. now rewrite Hl.
Qed.

Lemma mapM_accepted (l : list Mail.Attachment) :
  existsb Spec.refused l = false ->
  exists r, mapM mapAttachment l = inr r /\ Forall2 Spec.carried l r.
Proof.
  induction l as [|a l IH]; simpl.
  - intros _. exists []. split; [reflexivity | constructor].
  - intros H. apply orb_false_iff in H as [Ha Hl].
    destruct (mapAttachment_accepted a Ha) as (b & Hb & Hc).
    destruct (IH Hl) as (r & Hr & HF).
    exists (b :: r). rewrite Hb. simpl. rewrite Hr. simpl.
    split; [reflexivity | now constructor].
Qed.

Lemma sendEmail_refused_list (args : SweegoAdapterArgs) (fetch : network)
    (message : Mail.SendEmailOptions) (l : list Mail.Attachment) :
  Mail.attachments message = Some l ->
  existsb Spec.refused l = true ->
  exists m, Spec.invalidAttachmentMessage m /\
            sendEmail args fetch message = ([], inl (APIError m 400)).
Proof.
  intros Hl H. destruct (mapM_refused l H) as (m & Hm & Hmap).
  exists m. split; [assumption|].
  apply sendEmail_mapping_failure, mapPayload_attachment_failure.
  rewrite Hl. simpl. now rewrite Hmap.
Qed.

Lemma mapPayload_attachments (message : Mail.SendEmailOptions)
    (a n : jsstring) (d : option bool) (r : option (list Attachment))
    (p : SweegoSendEmailOptions) :
  mapAttachments (Mail.attachments message) = inr r ->
  mapPayloadEmailToSweegoEmail message a n d = inr p ->
  attachments p = match r with Some (x :: l) => Some (x :: l) | _ => None end.
Proof.
  intros Hr. unfold mapPayloadEmailToSweegoEmail. rewrite Hr. simpl.
  destruct (mapReplyTo (Mail.replyTo message)); simpl; [discriminate|].
  intros H. injection H as <-. reflexivity.
Qed.

Lemma mapM_refused_after (before after : list Mail.Attachment) (a : Mail.Attachment) :
  existsb Spec.refused before = false ->
  mapAttachment a = inl (APIError missingMessage 400) ->
  mapM mapAttachment (before ++ a :: after) = inl (APIError missingMessage 400).
Proof.
  induction before as [|b before IH]; simpl; intros Hb Ha.
  - now rewrite Ha.
  - apply orb_false_iff in Hb as [Hb1 Hb2].
    destruct (mapAttachment_accepted b Hb1) as (w & -> & _). simpl.
    now rewrite (IH Hb2 Ha).
Qed.

(** C9.  An attachment whose filename and content are both present,
    but whose content is the empty string or whose filename is the empty
    string, makes the mapping raise the [APIError] with the message
    [Attachment is missing filename or content] and status 400; a
    message that carries such an attachment is never posted: [sendEmail]
    makes no request and fails with an invalid-attachment error, which
    is this one when the attachments before it are accepted. *)
Theorem empty_attachment_refused (a : Mail.Attachment) (fn : jsstring) (c : Mail.Content) :
  Mail.filename a = Some fn ->
  Mail.content a = Some c ->
  fn = [] \/ c = Mail.ContentString [] ->
  mapAttachment a = inl (APIError missingMessage 400)
  /\ forall (args : SweegoAdapterArgs) (fetch : network) (message : Mail.SendEmailOptions)
            (before after : list Mail.Attachment),
       Mail.attachments message = Some (before ++ a :: after) ->
       fst (sendEmail args fetch message) = []
       /\ (exists m, Spec.invalidAttachmentMessage m /\
                     snd (sendEmail args fetch message) = inl (APIError m 400))
       /\ (existsb Spec.refused before = false ->
           snd (sendEmail args fetch message) = inl (APIError missingMessage 400)).
Proof.
  intros Hfn Hc Hempty.
  assert (Ha : mapAttachment a = inl (APIError missingMessage 400)).
  { unfold mapAttachment. rewrite Hfn, Hc.
    destruct Hempty as [-> | ->]; simpl; [reflexivity|].
    now rewrite orb_true_r. }
  split; [exact Ha|].
  intros args fetch message before after Hl.
  assert (Hr : existsb Spec.refused (before ++ a :: after) = true).
  { rewrite existsb_app. simpl.
    assert (Spec.refused a = true) as ->.
    { unfold Spec.refused. rewrite Hfn, Hc.
      destruct Hempty as [-> | ->]; simpl; [reflexivity|].
      now rewrite orb_true_r. }
    now rewrite orb_true_r. }
  destruct (sendEmail_refused_list args fetch message _ Hl Hr) as (m & Hm & Hsend).
  split; [now rewrite Hsend|].
  split; [exists m; split; [assumption | now rewrite Hsend]|].
  intros Hb.
  rewrite (@sendEmail_mapping_failure args fetch message (APIError missingMessage 400));
    [reflexivity|].
  apply mapPayload_attachment_failure. rewrite Hl. simpl.
  now rewrite (@mapM_refused_after before after a Hb Ha).
Qed.

Lemma empty_attachment_refused_witness :
  mapAttachment emptyAttachment = inl (APIError missingMessage 400)
  /\ fst (sendEmail exampleArgs (fun _ => inr accepted200)
            (withAttachments ([] ++ emptyAttachment :: []))) = [].
Proof.
  pose proof (@empty_attachment_refused emptyAttachment (lit "empty.txt")
                (Mail.ContentString []) eq_refl eq_refl (or_intror eq_refl)) as [H1 H2].
  split; [exact H1|].
  exact (proj1 (H2 exampleArgs (fun _ => inr accepted200)
                  (withAttachments ([] ++ emptyAttachment :: [])) [] [] eq_refl)).
Defined.

(** ** The sender *)

Lemma mapPayload_outcome (message : Mail.SendEmailOptions) (a n : jsstring)
    (d : option bool) :
  match mapPayloadEmailToSweegoEmail message a n d with
  | inr p =>
      from p = mapFromAddress (Mail.from message) n a
      /\ recipients p = mapAddresses (Mail.to message)
      /\ mapReplyTo (Mail.replyTo message) = inr (reply_to p)
  | inl e =>
      mapAttachments (Mail.attachments message) = inl e
      \/ mapReplyTo (Mail.replyTo message) = inl e
  end.
Proof.
  unfold mapPayloadEmailToSweegoEmail.
  destruct (mapAttachments (Mail.attachments message)) as [e|mapped]; simpl; [now left|].
  destruct (mapReplyTo (Mail.replyTo message)) as [e|reply]; simpl; [now right|].
  repeat split.
Qed.

(** C7.  For a message without [from], the payload the adapter
    assembles has [from] equal to the default address and the default
    name of the adapter's configuration, and so has the body of every
    request [sendEmail] posts; the assembly itself fails only where the
    attachments or the reply-to make it fail. *)
Theorem default_sender_when_absent (args : SweegoAdapterArgs) (fetch : network)
    (message : Mail.SendEmailOptions) :
  Mail.from message = None ->
  match mapPayloadEmailToSweegoEmail message (defaultFromAddress args)
          (defaultFromName args) (dryRun args) with
  | inr p =>
      from p = {| email := defaultFromAddress args; name := Some (defaultFromName args) |}
      /\ fst (sendEmail args fetch message) = [sendRequest (apiKey args) p]
  | inl e =>
      (mapAttachments (Mail.attachments message) = inl e
       \/ mapReplyTo (Mail.replyTo message) = inl e)
      /\ fst (sendEmail args fetch message) = []
  end.
Proof.
  intros Hfrom.
  pose proof (mapPayload_outcome message (defaultFromAddress args)
                (defaultFromName args) (dryRun args)) as H.
  unfold sendEmail.
  destruct (mapPayloadEmailToSweegoEmail message (defaultFromAddress args)
              (defaultFromName args) (dryRun args)) as [e|p].
  - split; [exact H | reflexivity].
  - destruct H as (H & _). rewrite H, Hfrom. split; reflexivity.
Qed.

Lemma default_sender_when_absent_witness :
  match mapPayloadEmailToSweegoEmail anonymousMessage (defaultFromAddress exampleArgs)
          (defaultFromName exampleArgs) (dryRun exampleArgs) with
  | inr p =>
      from p = {| email := defaultFromAddress exampleArgs;
                  name := Some (defaultFromName exampleArgs) |}
      /\ fst (sendEmail exampleArgs (fun _ => inr accepted200) anonymousMessage)
         = [sendRequest (apiKey exampleArgs) p]
  | inl e =>
      (mapAttachments (Mail.attachments anonymousMessage) = inl e
       \/ mapReplyTo (Mail.replyTo anonymousMessage) = inl e)
      /\ fst (sendEmail exampleArgs (fun _ => inr accepted200) anonymousMessage) = []
  end.
Proof.
  apply (@default_sender_when_absent exampleArgs (fun _ => inr accepted200) anonymousMessage).
  reflexivity.
Defined.

(** ** Reply-to *)

Lemma mapReplyTo_plain_string (s : jsstring) :
  truthy s = true -> s <> lit "string" ->
  mapReplyTo (Some (Mail.One (Mail.AddrString s))) = inl TypeError.
Proof.
  intros Ht Hs. unfold mapReplyTo. rewrite Ht. simpl.
  apply str_eqb_neq in Hs. now rewrite Hs.
Qed.

(** C2, at the failing input: a message whose reply-to is the plain
    string [reply@zapal.tech] is not assembled; the test that should
    recognise a string compares the value with the literal [string], the
    string reaches the branch of structured addresses, and the mapping
    raises a [TypeError].  [sendEmail] posts nothing. *)
Theorem replyTo_plain_string_raises :
  mapPayloadEmailToSweegoEmail replyToStringMessage (defaultFromAddress exampleArgs)
    (defaultFromName exampleArgs) (dryRun exampleArgs) = inl TypeError
  /\ sendEmail exampleArgs (fun _ => inr accepted200) replyToStringMessage
     = ([], inl TypeError).
Proof. split; vm_compute; reflexivity. Qed.

(** ** Trimming *)

Lemma trimStart_length (s : jsstring) : length (trimStart s) <= length s.
Proof.
  induction s as [|c s IH]; simpl; [lia|].
  destruct (isTrimmed c); simpl; lia.
Qed.

Lemma trimStart_same_length (s : jsstring) :
  length (trimStart s) = length s -> trimStart s = s.
Proof.
  destruct s as [|c s]; simpl; [reflexivity|].
  destruct (isTrimmed c); [|reflexivity].
  intros H. pose proof (trimStart_length s). lia.
Qed.

Lemma trimStart_idem (s : jsstring) : trimStart (trimStart s) = trimStart s.
Proof.
  induction s as [|c s IH]; simpl; [reflexivity|].
  destruct (isTrimmed c) eqn:E; [assumption|]. simpl. now rewrite E.
Qed.

Lemma trimStart_head (s : jsstring) :
  trimStart s = [] \/ exists x r, trimStart s = x :: r /\ isTrimmed x = false.
Proof.
  induction s as [|c s IH]; simpl; [now left|].
  destruct (isTrimmed c) eqn:E; [assumption|]. right. now exists c, s.
Qed.

Lemma trimStart_app_kept (u v : jsstring) (x : N) :
  isTrimmed x = false -> trimStart (u ++ x :: v) = trimStart u ++ x :: v.
Proof.
  intros Hx. induction u as [|c u IH]; simpl.
  - now rewrite Hx.
  - destruct (isTrimmed c); [assumption | reflexivity].
Qed.

Lemma trimEnd_length (s : jsstring) : length (trimEnd s) <= length s.
Proof.
  unfold trimEnd. rewrite length_rev.
  pose proof (trimStart_length (rev s)). now rewrite length_rev in H.
Qed.

Lemma trimEnd_same_length (s : jsstring) :
  length (trimEnd s) = length s -> trimEnd s = s.
Proof.
  unfold trimEnd. rewrite length_rev. intros H.
  rewrite trimStart_same_length; [apply rev_involutive|].
  now rewrite length_rev.
Qed.

Lemma trimEnd_idem (s : jsstring) : trimEnd (trimEnd s) = trimEnd s.
Proof. unfold trimEnd. now rewrite rev_involutive, trimStart_idem. Qed.

Lemma trimEnd_cons_kept (x : N) (s : jsstring) :
  isTrimmed x = false -> trimEnd (x :: s) = x :: trimEnd s.
Proof.
  intros Hx. unfold trimEnd. simpl.
  rewrite trimStart_app_kept by assumption.
  now rewrite rev_app_distr.
Qed.

Lemma trim_length (s : jsstring) : length (trim s) <= length s.
Proof.
  unfold trim. pose proof (trimEnd_length (trimStart s)).
  pose proof (trimStart_length s). lia.
Qed.

Lemma trim_same_length (s : jsstring) : length (trim s) = length s -> trim s = s.
Proof.
  unfold trim. intros H.
  pose proof (trimEnd_length (trimStart s)). pose proof (trimStart_length s).
  assert (Hs : trimStart s = s) by (apply trimStart_same_length; lia).
  rewrite Hs in *. now apply trimEnd_same_length.
Qed.

Lemma trim_idem (s : jsstring) : trim (trim s) = trim s.
Proof.
  unfold trim.
  assert (H : trimStart (trimEnd (trimStart s)) = trimEnd (trimStart s)).
  { destruct (trimStart_head s) as [-> | (x & r & -> & Hx)]; [reflexivity|].
    rewrite trimEnd_cons_kept by assumption. simpl. now rewrite Hx. }
  now rewrite H, trimEnd_idem.
Qed.

(** ** The matcher on the patterns of the source *)

Lemma star_all_fail (k : nat -> jsstring -> option result) (inp : jsstring) :
  (forall a b pos, inp = a ++ b -> k pos b = None) ->
  forall pos, star k pos inp = None.
Proof.
  induction inp as [|x inp IH]; intros Hk pos; simpl.
  - now apply (Hk [] []).
  - assert (Hhere : k pos (x :: inp) = None) by now apply (Hk []).
    destruct (isLineTerminator x); [assumption|].
    rewrite IH; [assumption|].
    intros a b pos' ->. now apply (Hk (x :: a)).
Qed.

Lemma star_skip (k : nat -> jsstring -> option result) (a b : jsstring) (r : result) :
  singleLine a ->
  forall pos, star k (pos + length a) b = Some r -> star k pos (a ++ b) = Some r.
Proof.
  induction a as [|x a IH]; intros Ha pos H; simpl in *.
  - now rewrite Nat.add_0_r in H.
  - rewrite (Ha x) by now left.
    rewrite IH; [reflexivity | intros y Hy; apply Ha; now right |].
    now rewrite Nat.add_succ_r in H.
Qed.

Lemma star_here (k : nat -> jsstring -> option result) (x : N) (inp : jsstring) (pos : nat) :
  isLineTerminator x = false ->
  star k (S pos) inp = None ->
  star k pos (x :: inp) = k pos (x :: inp).
Proof. intros Hx H. simpl. now rewrite Hx, H. Qed.

Lemma matchAt_email (pos : nat) (inp : jsstring) :
  matchAt re_email pos inp = star fromBracket pos inp.
Proof.
  unfold matchAt, re_email. cbn [matchAlt].
  change (fun pos' inp' => _) with fromBracket.
  now destruct (star fromBracket pos inp).
Qed.

Lemma search_none (p : pattern) (inp : jsstring) :
  (forall a b pos, inp = a ++ b -> matchAt p pos b = None) ->
  forall pos, search p pos inp = None.
Proof.
  induction inp as [|x inp IH]; intros Hk pos; simpl.
  - now rewrite (Hk [] []).
  - rewrite (Hk [] (x :: inp)) by reflexivity.
    apply IH. intros a b pos' ->. now apply (Hk (x :: a)).
Qed.

Lemma not_in_suffix (c : N) (a b s : jsstring) : ~ In c s -> s = a ++ b -> ~ In c b.
Proof. intros H -> Hb. apply H, in_or_app. now right. Qed.

Lemma fromBracket_without_lt (pos : nat) (b : jsstring) :
  ~ In lt_sign b -> fromBracket pos b = None.
Proof.
  destruct b as [|x b]; simpl; [reflexivity|]. intros H.
  destruct (N.eqb_spec x lt_sign) as [->|_]; [|reflexivity].
  exfalso. apply H. now left.
Qed.

Lemma afterGroup_without_gt (g pos : nat) (b : jsstring) :
  ~ In gt_sign b -> afterGroup g pos b = None.
Proof.
  destruct b as [|x b]; simpl; [reflexivity|]. intros H.
  destruct (N.eqb_spec x gt_sign) as [->|_]; [|reflexivity].
  exfalso. apply H. now left.
Qed.

Lemma matchAt_email_without_lt (pos : nat) (inp : jsstring) :
  ~ In lt_sign inp -> matchAt re_email pos inp = None.
Proof.
  intros H. rewrite matchAt_email. apply star_all_fail.
  intros a b pos' E. apply fromBracket_without_lt. eapply not_in_suffix; eauto.
Qed.

Lemma fromBracket_without_gt (inp : jsstring) :
  ~ In gt_sign inp -> forall pos, fromBracket pos inp = None.
Proof.
  intros H pos. destruct inp as [|x inp]; simpl; [reflexivity|].
  destruct (x =? lt_sign)%N; [|reflexivity].
  apply star_all_fail. intros a b pos' E. apply afterGroup_without_gt.
  intros Hb. apply H. right. rewrite E. apply in_or_app. now right.
Qed.

Lemma matchAt_email_without_gt (pos : nat) (inp : jsstring) :
  ~ In gt_sign inp -> matchAt re_email pos inp = None.
Proof.
  intros H. rewrite matchAt_email. apply star_all_fail.
  intros a b pos' E. apply fromBracket_without_gt. eapply not_in_suffix; eauto.
Qed.

Lemma replace_email_without_brackets (s : jsstring) :
  ~ In lt_sign s \/ ~ In gt_sign s -> replace re_email Group1 s = s.
Proof.
  intros H. unfold replace. rewrite search_none; [reflexivity|].
  intros a b pos E. destruct H as [H|H].
  - apply matchAt_email_without_lt. eapply not_in_suffix; eauto.
  - apply matchAt_email_without_gt. eapply not_in_suffix; eauto.
Qed.

Lemma matchAt_name_without_lt (pos : nat) (inp : jsstring) :
  ~ In lt_sign inp -> matchAt re_name pos inp = None.
Proof.
  intros H. unfold matchAt, re_name. cbn [matchAlt].
  rewrite star_all_fail; [reflexivity|].
  intros a b pos' E. cbn.
  destruct b as [|x b]; [reflexivity|].
  destruct (N.eqb_spec x lt_sign) as [->|_]; [|reflexivity].
  exfalso. apply (@not_in_suffix lt_sign a (lt_sign :: b) inp H E). now left.
Qed.

Lemma replace_name_without_lt (s : jsstring) :
  ~ In lt_sign s -> replace re_name Group1 s = s.
Proof.
  intros H. unfold replace. rewrite search_none; [reflexivity|].
  intros a b pos E. apply matchAt_name_without_lt. eapply not_in_suffix; eauto.
Qed.

Lemma search_here (p : pattern) (pos : nat) (inp : jsstring) (r : result) :
  matchAt p pos inp = Some r -> search p pos inp = Some (pos, r).
Proof. intros H. destruct inp; simpl; now rewrite H. Qed.

Lemma fromBracket_fails_in_group (c r : jsstring) :
  ~ In lt_sign c -> ~ In gt_sign r ->
  forall a b pos, c ++ gt_sign :: r = a ++ b -> fromBracket pos b = None.
Proof.
  intros Hc Hr. induction c as [|x c IH]; intros a b pos E.
  - destruct a as [|y a]; simpl in E.
    + subst b. reflexivity.
    + injection E as _ E. apply fromBracket_without_gt.
      eapply not_in_suffix; eauto.
  - destruct a as [|y a]; simpl in E.
    + subst b. simpl.
      destruct (N.eqb_spec x lt_sign) as [->|_]; [|reflexivity].
      exfalso. apply Hc. now left.
    + injection E as _ E. eapply IH; [|exact E].
      intros H. apply Hc. now right.
Qed.

Lemma afterGroup_star_closes (g pos : nat) (c r : jsstring) :
  singleLine c -> ~ In gt_sign r ->
  star (afterGroup g) pos (c ++ gt_sign :: r)
  = Some (S (pos + length c), mkCaptures g (Some (g, pos + length c))).
Proof.
  intros Hc Hr. apply star_skip; [assumption|].
  rewrite star_here; [simpl; reflexivity | reflexivity |].
  apply star_all_fail. intros a b pos' E. apply afterGroup_without_gt.
  eapply not_in_suffix; eauto.
Qed.

(** The match of the e-mail pattern on a string with a group: the
    group is the one closed by the last greater-than sign and opened by
    the last less-than sign before it. *)
Lemma matchAt_email_group (p c r : jsstring) :
  singleLine p -> singleLine c -> ~ In lt_sign c -> ~ In gt_sign r ->
  matchAt re_email 0 (p ++ lt_sign :: c ++ gt_sign :: r)
  = Some (S (S (length p + length c)),
          mkCaptures (S (length p)) (Some (S (length p), S (length p + length c)))).
Proof.
  intros Hp Hc Hlt Hgt. rewrite matchAt_email.
  apply star_skip; [assumption|]. simpl Nat.add.
  rewrite star_here.
  - simpl. rewrite afterGroup_star_closes by assumption. reflexivity.
  - reflexivity.
  - apply star_all_fail. intros a b pos E.
    now apply (@fromBracket_fails_in_group c r Hlt Hgt a b pos).
Qed.

Lemma skipn_past (A : Type) (a b : list A) (x : A) :
  skipn (S (length a)) (a ++ x :: b) = b.
Proof. induction a; simpl; auto. Qed.

Lemma firstn_length_app (A : Type) (a b : list A) : firstn (length a) (a ++ b) = a.
Proof. induction a; simpl; congruence. Qed.

Lemma replace_email_group (p c r : jsstring) :
  singleLine p -> singleLine c -> ~ In lt_sign c -> ~ In gt_sign r ->
  replace re_email Group1 (p ++ lt_sign :: c ++ gt_sign :: r) = c ++ r.
Proof.
  intros Hp Hc Hlt Hgt. unfold replace.
  rewrite (search_here _ _ _ _ (matchAt_email_group p c r Hp Hc Hlt Hgt)).
  unfold substitute, substring. simpl group1. cbv iota beta.
  rewrite skipn_past.
  replace (S (length p + length c) - S (length p)) with (length c) by lia.
  rewrite firstn_length_app.
  replace (p ++ lt_sign :: c ++ gt_sign :: r) with ((p ++ lt_sign :: c) ++ gt_sign :: r)
    by (rewrite <- app_assoc; reflexivity).
  replace (S (length p + length c)) with (length (p ++ lt_sign :: c))
    by (rewrite length_app; simpl; lia).
  rewrite skipn_past. reflexivity.
Qed.

Lemma in_trimStart (x : N) (s : jsstring) : In x (trimStart s) -> In x s.
Proof.
  induction s as [|c s IH]; simpl; [auto|].
  destruct (isTrimmed c); [auto | trivial].
Qed.

Lemma in_trim (x : N) (s : jsstring) : In x (trim s) -> In x s.
Proof.
  unfold trim, trimEnd. intros H. apply in_trimStart.
  apply in_rev in H. apply in_trimStart in H. now apply in_rev.
Qed.

(** ** [extractEmailFromAddressString] *)

Lemma extractEmail_without_brackets (s : jsstring) :
  ~ In lt_sign s \/ ~ In gt_sign s ->
  extractEmailFromAddressString s = trim s.
Proof.
  intros H. unfold extractEmailFromAddressString.
  rewrite replace_email_without_brackets; [apply trim_idem|].
  destruct H as [H|H]; [left | right]; intros Hin; apply H; now apply in_trim.
Qed.

(** C3 (as amended).  [extractEmailFromAddressString] returns the
    trimmed string when the string has no less-than sign or no
    greater-than sign.  When the trimmed string is [p<c>r], with no line
    terminator before the closing bracket, [c] free of less-than signs
    and [r] free of greater-than signs (so the brackets are the last
    less-than sign before the last greater-than sign), it removes [p]
    and the two brackets, keeps the text [r] that follows the group, and
    trims: the result is [c ++ r] trimmed.  With two groups in the
    string the content of the last one is returned. *)
Theorem extractEmail_last_group (s : jsstring) :
  (~ In lt_sign s \/ ~ In gt_sign s -> extractEmailFromAddressString s = trim s)
  /\ (forall p c r : jsstring,
        trim s = p ++ lt_sign :: c ++ gt_sign :: r ->
        singleLine p -> singleLine c -> ~ In lt_sign c -> ~ In gt_sign r ->
        extractEmailFromAddressString s = trim (c ++ r))
  /\ extractEmailFromAddressString twoGroups = lit "z@w".
Proof.
  split; [apply extractEmail_without_brackets|]. split.
  - intros p c r E Hp Hc Hlt Hgt. unfold extractEmailFromAddressString.
    rewrite E. now rewrite replace_email_group.
  - vm_compute. reflexivity.
Qed.

Lemma extractEmail_last_group_witness :
  extractEmailFromAddressString bareAddress = trim bareAddress
  /\ extractEmailFromAddressString namedAddress = trim (lit "hello@zapal.tech" ++ []).
Proof.
  split.
  - apply (proj1 (extractEmail_last_group bareAddress)).
    left. vm_compute. intuition discriminate.
  - apply (proj1 (proj2 (extractEmail_last_group namedAddress)) (lit "Zapal ")).
    + vm_compute. reflexivity.
    + intros x Hx. vm_compute in Hx. intuition (subst; reflexivity).
    + intros x Hx. vm_compute in Hx. intuition (subst; reflexivity).
    + vm_compute. intuition discriminate.
    + simpl. tauto.
Defined.

(** C3, the claim as stated fails: on a string with two bracketed
    groups the result is the content of the last group, not of the
    first; and text after the group is not stripped. *)
Lemma extractEmail_first_group_counterexample :
  extractEmailFromAddressString twoGroups <> lit "x@y"
  /\ extractEmailFromAddressString (lit "a <x@y> b") = lit "x@y b".
Proof. split; [vm_compute; discriminate | vm_compute; reflexivity]. Qed.

(** ** The quote patterns *)

Lemma matchAt_quote_start (q x : N) (inp : jsstring) :
  matchAt (re_quote q) 0 (x :: inp)
  = if (x =? q)%N then Some (1, mkCaptures 0 None) else None.
Proof. unfold matchAt, re_quote. cbn. now destruct (x =? q)%N. Qed.

Lemma matchAt_quote_later (q x : N) (pos : nat) (inp : jsstring) :
  matchAt (re_quote q) (S pos) (x :: inp)
  = if (x =? q)%N
    then match inp with
         | [] => Some (S (S pos), mkCaptures (S pos) None)
         | _ :: _ => None
         end
    else None.
Proof.
  unfold matchAt, re_quote. cbn. destruct (x =? q)%N; [|reflexivity]. now destruct inp.
Qed.

Lemma matchAt_quote_end (q : N) (pos : nat) : matchAt (re_quote q) pos [] = None.
Proof. unfold matchAt, re_quote. cbn. now destruct (pos =? 0). Qed.

Lemma replaceAllAt_quote_end (q : N) (s : jsstring) (pos n : nat) :
  replaceAllAt (re_quote q) Nothing s pos [] n = [].
Proof. destruct n; cbn [replaceAllAt]; [|reflexivity]. now rewrite matchAt_quote_end. Qed.

Lemma replaceAllAt_quote_later (q : N) (s inp : jsstring) :
  forall pos, replaceAllAt (re_quote q) Nothing s (S pos) inp 0 = dropLastQuote q inp.
Proof.
  induction inp as [|x inp IH]; intros pos.
  - apply replaceAllAt_quote_end.
  - cbn [replaceAllAt]. rewrite matchAt_quote_later.
    destruct (x =? q)%N eqn:E.
    + destruct inp as [|y inp].
      * cbn [substitute app].
        replace (S (S pos) =? S pos) with false by (symmetry; apply Nat.eqb_neq; lia).
        rewrite replaceAllAt_quote_end. simpl. now rewrite E.
      * rewrite IH. reflexivity.
    + rewrite IH. simpl. destruct inp; [now rewrite E | reflexivity].
Qed.

Lemma replaceAll_quote (q : N) (s : jsstring) :
  replaceAll (re_quote q) Nothing s = stripQuotes q s.
Proof.
  unfold replaceAll. destruct s as [|x s].
  - apply replaceAllAt_quote_end.
  - cbn [replaceAllAt]. rewrite matchAt_quote_start. unfold stripQuotes.
    destruct (x =? q)%N.
    + cbn [substitute app Nat.eqb Nat.sub]. apply replaceAllAt_quote_later.
    + now rewrite replaceAllAt_quote_later.
Qed.

Lemma dropLastQuote_length (q : N) (s : jsstring) :
  length (dropLastQuote q s) <= length s.
Proof.
  induction s as [|x s IH]; simpl; [lia|].
  destruct s; [destruct (x =? q)%N; simpl; lia | simpl in *; lia].
Qed.

Lemma dropLastQuote_fixed (q : N) (s : jsstring) :
  (length (dropLastQuote q s) = length s -> Spec.endsWith q s = false)
  /\ (Spec.endsWith q s = false -> dropLastQuote q s = s).
Proof.
  induction s as [|x s IH]; [simpl; auto|].
  destruct s as [|y s].
  - simpl. destruct (x =? q)%N; simpl; split; auto; discriminate.
  - change (dropLastQuote q (x :: y :: s)) with (x :: dropLastQuote q (y :: s)).
    change (Spec.endsWith q (x :: y :: s)) with (Spec.endsWith q (y :: s)).
    destruct IH as [IH1 IH2]. split.
    + intros H. apply IH1. simpl in H. simpl. lia.
    + intros H. now rewrite IH2.
Qed.

Lemma stripQuotes_length (q : N) (s : jsstring) : length (stripQuotes q s) <= length s.
Proof.
  destruct s as [|x s]; simpl; [lia|].
  pose proof (dropLastQuote_length q s).
  destruct (x =? q)%N; simpl; lia.
Qed.

(** The quote patterns leave a string as it is exactly when it neither
    starts nor ends with the quote; otherwise they shorten it. *)
Lemma stripQuotes_fixed (q : N) (s : jsstring) :
  (length (stripQuotes q s) = length s ->
   Spec.startsWith q s = false /\ Spec.endsWith q s = false)
  /\ (Spec.startsWith q s = false -> Spec.endsWith q s = false -> stripQuotes q s = s).
Proof.
  destruct s as [|x s]; [simpl; auto|].
  unfold stripQuotes, Spec.startsWith.
  pose proof (dropLastQuote_length q s) as Hlen.
  destruct (dropLastQuote_fixed q s) as [H1 H2].
  destruct (x =? q)%N eqn:E; split.
  - simpl. intros H. lia.
  - discriminate.
  - intros H. split; [reflexivity|].
    assert (Hs : Spec.endsWith q s = false) by (apply H1; simpl in H; lia).
    destruct s as [|y s]; [simpl; assumption | exact Hs].
  - intros _ H. f_equal. apply H2.
    destruct s as [|y s]; [reflexivity | exact H].
Qed.

(** ** [extractNameFromAddressString] on a string without brackets *)

Lemma extractName_without_lt (s : jsstring) :
  ~ In lt_sign s ->
  extractNameFromAddressString s
  = trim (stripQuotes squote (trim (stripQuotes dquote (trim s)))).
Proof.
  intros H. unfold extractNameFromAddressString.
  rewrite replace_name_without_lt by (intros Hin; apply H; now apply in_trim).
  now rewrite !replaceAll_quote, trim_idem.
Qed.

Lemma extractName_unchanged (s : jsstring) :
  ~ In lt_sign s ->
  (extractNameFromAddressString s = s
   <-> trim s = s
       /\ Spec.startsWith dquote s = false /\ Spec.endsWith dquote s = false
       /\ Spec.startsWith squote s = false /\ Spec.endsWith squote s = false).
Proof.
  intros H. rewrite extractName_without_lt by assumption. split.
  - intros E.
    pose proof (trim_length s) as L1.
    pose proof (stripQuotes_length dquote (trim s)) as L2.
    pose proof (trim_length (stripQuotes dquote (trim s))) as L3.
    pose proof (stripQuotes_length squote (trim (stripQuotes dquote (trim s)))) as L4.
    pose proof (trim_length (stripQuotes squote (trim (stripQuotes dquote (trim s))))) as L5.
    assert (L : length (trim (stripQuotes squote (trim (stripQuotes dquote (trim s)))))
                = length s) by now rewrite E.
    assert (T1 : trim s = s) by (apply trim_same_length; lia).
    rewrite T1 in *.
    destruct (proj1 (stripQuotes_fixed dquote s)) as [D1 D2]; [lia|].
    assert (T2 : stripQuotes dquote s = s) by now apply stripQuotes_fixed.
    rewrite T2, T1 in *.
    destruct (proj1 (stripQuotes_fixed squote s)) as [S1 S2]; [lia|].
    auto.
  - intros (T & D1 & D2 & S1 & S2).
    rewrite T. rewrite (proj2 (stripQuotes_fixed dquote s) D1 D2). rewrite T.
    rewrite (proj2 (stripQuotes_fixed squote s) S1 S2). exact T.
Qed.

(** ** Addresses *)

Lemma name_of_string_absent (s : jsstring) :
  name (ofAddressString s) = None <-> extractNameFromAddressString s = s.
Proof.
  unfold ofAddressString. simpl.
  destruct (str_eqb (extractNameFromAddressString s) s) eqn:E.
  - apply str_eqb_eq in E. tauto.
  - apply str_eqb_neq in E. split; [discriminate | contradiction].
Qed.

(** C4 (as amended).  For a non-empty address string without angle
    brackets, given as [from] or as the single [to] value, the parsed
    address has the trimmed string as email, and its name is absent
    exactly when [extractNameFromAddressString] returns the string
    unchanged, which happens exactly when the string has no white space
    at either end and no double quote or apostrophe at either end; in
    every other case the name is present and is the string trimmed and
    stripped of those quotes. *)
Theorem bare_address_parse (s defaultName defaultAddress : jsstring) :
  truthy s = true -> ~ In lt_sign s -> ~ In gt_sign s ->
  let e := mapFromAddress (Some (Mail.AddrString s)) defaultName defaultAddress in
  mapAddresses (Some (Mail.One (Mail.AddrString s))) = [e]
  /\ email e = trim s
  /\ (name e = None <-> extractNameFromAddressString s = s)
  /\ (name e = None
      <-> trim s = s
          /\ Spec.startsWith dquote s = false /\ Spec.endsWith dquote s = false
          /\ Spec.startsWith squote s = false /\ Spec.endsWith squote s = false)
  /\ (forall n, name e = Some n ->
        n = trim (stripQuotes squote (trim (stripQuotes dquote (trim s))))).
Proof.
  intros Ht Hlt Hgt. unfold mapFromAddress, mapAddresses. rewrite Ht. simpl negb. cbv iota.
  split; [reflexivity|]. split; [|split; [|split]].
  - simpl. apply extractEmail_without_brackets. now left.
  - apply name_of_string_absent.
  - rewrite name_of_string_absent. now apply extractName_unchanged.
  - intros n. simpl.
    destruct (str_eqb (extractNameFromAddressString s) s); [discriminate|].
    intros H. injection H as <-. now apply extractName_without_lt.
Qed.

Lemma bare_address_parse_witness :
  let e := mapFromAddress (Some (Mail.AddrString bareAddress))
             (defaultFromName exampleArgs) (defaultFromAddress exampleArgs) in
  mapAddresses (Some (Mail.One (Mail.AddrString bareAddress))) = [e]
  /\ email e = trim bareAddress
  /\ (name e = None <-> extractNameFromAddressString bareAddress = bareAddress)
  /\ (name e = None
      <-> trim bareAddress = bareAddress
          /\ Spec.startsWith dquote bareAddress = false
          /\ Spec.endsWith dquote bareAddress = false
          /\ Spec.startsWith squote bareAddress = false
          /\ Spec.endsWith squote bareAddress = false)
  /\ (forall n, name e = Some n ->
        n = trim (stripQuotes squote (trim (stripQuotes dquote (trim bareAddress))))).
Proof.
  apply (bare_address_parse bareAddress (defaultFromName exampleArgs)
           (defaultFromAddress exampleArgs)).
  - reflexivity.
  - vm_compute. intuition discriminate.
  - vm_compute. intuition discriminate.
Defined.

(** C4, the claim as stated fails: a string without brackets but with
    surrounding white space, or with surrounding quotes, is parsed with
    a name, the string trimmed and unquoted. *)
Lemma bare_address_name_counterexample :
  mapFromAddress (Some (Mail.AddrString paddedAddress))
    (defaultFromName exampleArgs) (defaultFromAddress exampleArgs)
  = {| email := lit "hello@zapal.tech"; name := Some (lit "hello@zapal.tech") |}
  /\ name (mapFromAddress (Some (Mail.AddrString paddedAddress))
             (defaultFromName exampleArgs) (defaultFromAddress exampleArgs)) <> None
  /\ name (mapFromAddress (Some (Mail.AddrString ([squote] ++ bareAddress ++ [squote])))
             (defaultFromName exampleArgs) (defaultFromAddress exampleArgs))
     = Some bareAddress.
Proof.
  split; [vm_compute; reflexivity|].
  split; [vm_compute; discriminate | vm_compute; reflexivity].
Qed.

Lemma name_of_object_absent (a : Mail.Address) :
  name (ofAddressObject a) = None <-> Mail.name a = Mail.address a.
Proof.
  unfold ofAddressObject. simpl.
  destruct (str_eqb (Mail.name a) (Mail.address a)) eqn:E.
  - apply str_eqb_eq in E. tauto.
  - apply str_eqb_neq in E. split; [discriminate | contradiction].
Qed.

(** C5 (as amended).  A structured address [{address, name}] given as
    [from], as [to], inside a list, or first in a reply-to list, is
    normalised to an address whose email is
    [extractEmailFromAddressString] of the [address] string (trimmed,
    and with a bracketed group extracted, as for address strings) and
    whose name is the object's name, dropped exactly when it equals the
    [address] string.  The email is the [address] string unchanged when
    that string has no white space at either end and no less-than sign
    or no greater-than sign. *)
Theorem structured_address_parse (a : Mail.Address) (defaultName defaultAddress : jsstring) :
  let e := mapFromAddress (Some (Mail.AddrObject a)) defaultName defaultAddress in
  email e = extractEmailFromAddressString (Mail.address a)
  /\ (name e = None <-> Mail.name a = Mail.address a)
  /\ (Mail.name a <> Mail.address a -> name e = Some (Mail.name a))
  /\ mapAddresses (Some (Mail.One (Mail.AddrObject a))) = [e]
  /\ (forall l i, nth_error l i = Some (Mail.AddrObject a) ->
        nth_error (mapAddresses (Some (Mail.Many l))) i = Some e)
  /\ (forall l, mapReplyTo (Some (Mail.Many (Mail.AddrObject a :: l))) = inr (Some e))
  /\ (trim (Mail.address a) = Mail.address a ->
      ~ In lt_sign (Mail.address a) \/ ~ In gt_sign (Mail.address a) ->
      email e = Mail.address a).
Proof.
  simpl. repeat split.
  - apply name_of_object_absent.
  - apply name_of_object_absent.
  - intros H. apply str_eqb_neq in H. now rewrite H.
  - intros l i H. rewrite nth_error_map, H. reflexivity.
  - intros T H. rewrite extractEmail_without_brackets by assumption. exact T.
Qed.

Lemma structured_address_parse_witness :
  Mail.name plainObject <> Mail.address plainObject
  /\ name (mapFromAddress (Some (Mail.AddrObject plainObject))
             (defaultFromName exampleArgs) (defaultFromAddress exampleArgs))
     = Some (Mail.name plainObject)
  /\ email (mapFromAddress (Some (Mail.AddrObject plainObject))
              (defaultFromName exampleArgs) (defaultFromAddress exampleArgs))
     = Mail.address plainObject.
Proof.
  pose proof (structured_address_parse plainObject (defaultFromName exampleArgs)
                (defaultFromAddress exampleArgs)) as (_ & _ & Hname & _ & _ & _ & Hemail).
  assert (Hneq : Mail.name plainObject <> Mail.address plainObject)
    by (vm_compute; discriminate).
  split; [exact Hneq|]. split; [exact (Hname Hneq)|].
  apply Hemail; [vm_compute; reflexivity | left; vm_compute; intuition discriminate].
Defined.

(** C5, the claim as stated fails: the [address] string is not copied
    unchanged; a display name and brackets inside it are stripped. *)
Lemma structured_address_email_counterexample :
  mapAddresses (Some (Mail.One (Mail.AddrObject bracketedObject)))
  = [{| email := lit "hello@zapal.tech"; name := Some (lit "Zapal") |}]
  /\ email (mapFromAddress (Some (Mail.AddrObject bracketedObject))
              (defaultFromName exampleArgs) (defaultFromAddress exampleArgs))
     <> Mail.address bracketedObject.
Proof. split; [vm_compute; reflexivity | vm_compute; discriminate]. Qed.

(** ** UTF-8 *)

Lemma isScalar_spec (cp : N) :
  isScalar cp = true <-> (cp < 0x110000 /\ (cp < 0xD800 \/ 0xDFFF < cp))%N.
Proof.
  unfold isScalar. rewrite andb_true_iff, negb_true_iff, andb_false_iff.
  rewrite N.ltb_lt, !N.leb_gt. tauto.
Qed.

Lemma decode_encodeCodePoint (cp : N) (bs : Utf8.buffer) :
  isScalar cp = true ->
  Utf8.decodeCodePoints (Utf8.encodeCodePoint cp ++ bs)
  = option_map (cons cp) (Utf8.decodeCodePoints bs).
Proof.
  intros H. apply isScalar_spec in H as [Hmax Hsur].
  unfold Utf8.encodeCodePoint.
  destruct (N.ltb_spec cp 0x80); [|destruct (N.ltb_spec cp 0x800);
    [|destruct (N.ltb_spec cp 0x10000)]];
    cbn [app Utf8.decodeCodePoints]; unfold Utf8.isContinuation; cbv zeta.
  - settle_tests. reflexivity.
  - settle_tests.
    replace ((0xC0 + cp / 0x40 - 0xC0) * 0x40 + (0x80 + cp mod 0x40 - 0x80))%N
      with cp by lia.
    reflexivity.
  - replace ((0xE0 + cp / 0x1000 - 0xE0) * 0x1000
             + (0x80 + (cp / 0x40) mod 0x40 - 0x80) * 0x40
             + (0x80 + cp mod 0x40 - 0x80))%N with cp by lia.
    destruct Hsur; settle_tests; reflexivity.
  - replace ((0xF0 + cp / 0x40000 - 0xF0) * 0x40000
             + (0x80 + (cp / 0x1000) mod 0x40 - 0x80) * 0x1000
             + (0x80 + (cp / 0x40) mod 0x40 - 0x80) * 0x40
             + (0x80 + cp mod 0x40 - 0x80))%N with cp by lia.
    settle_tests. reflexivity.
Qed.

Lemma decode_encoded_codePoints (cps : list N) :
  forallb isScalar cps = true ->
  Utf8.decodeCodePoints (flat_map Utf8.encodeCodePoint cps) = Some cps.
Proof.
  induction cps as [|cp cps IH]; simpl; [reflexivity|].
  intros H. apply andb_true_iff in H as [Hcp Hcps].
  rewrite decode_encodeCodePoint by assumption.
  now rewrite IH.
Qed.

Lemma surrogate_tests (c : N) :
  (Utf8.isHighSurrogate c = true <-> (0xD800 <= c <= 0xDBFF)%N)
  /\ (Utf8.isLowSurrogate c = true <-> (0xDC00 <= c <= 0xDFFF)%N).
Proof.
  unfold Utf8.isHighSurrogate, Utf8.isLowSurrogate.
  rewrite !andb_true_iff, !N.leb_le. tauto.
Qed.

Lemma isHighSurrogate_false (c : N) :
  Utf8.isHighSurrogate c = false <-> (c < 0xD800 \/ 0xDBFF < c)%N.
Proof.
  unfold Utf8.isHighSurrogate. rewrite andb_false_iff, !N.leb_gt. tauto.
Qed.

Lemma isLowSurrogate_false (c : N) :
  Utf8.isLowSurrogate c = false <-> (c < 0xDC00 \/ 0xDFFF < c)%N.
Proof.
  unfold Utf8.isLowSurrogate. rewrite andb_false_iff, !N.leb_gt. tauto.
Qed.

(** The code points read from a string are scalar values. *)
Lemma isString_cons (c : N) (r : jsstring) :
  Utf8.isString (c :: r) = true <-> (c < 0x10000)%N /\ Utf8.isString r = true.
Proof.
  unfold Utf8.isString. cbn [forallb]. now rewrite andb_true_iff, N.ltb_lt.
Qed.

Lemma codePoints_scalar (n : nat) :
  forall s, length s <= n -> Utf8.isString s = true ->
            forallb isScalar (Utf8.codePoints s) = true.
Proof.
  induction n as [|n IH]; intros s Hn Hs.
  - destruct s; [reflexivity | cbn [length] in Hn; lia].
  - destruct s as [|c r]; [reflexivity|].
    apply isString_cons in Hs as [Hc Hr].
    cbn [length] in Hn. cbn [Utf8.codePoints].
    assert (Hfffd : isScalar 0xFFFD = true) by reflexivity.
    destruct (Utf8.isHighSurrogate c) eqn:Hh.
    + apply surrogate_tests in Hh.
      destruct r as [|d r']; [reflexivity|].
      destruct (Utf8.isLowSurrogate d) eqn:Hl.
      * apply surrogate_tests in Hl.
        apply isString_cons in Hr as [_ Hr'].
        cbn [forallb]. cbn [length] in Hn. rewrite IH; [|lia|assumption].
        rewrite andb_true_r. apply isScalar_spec. lia.
      * cbn [forallb]. rewrite Hfffd. cbn [andb]. apply IH; [lia | assumption].
    + apply isHighSurrogate_false in Hh.
      destruct (Utf8.isLowSurrogate c) eqn:Hl; cbn [forallb].
      * rewrite Hfffd. cbn [andb]. apply IH; [lia | assumption].
      * apply isLowSurrogate_false in Hl.
        rewrite IH; [|lia|assumption]. rewrite andb_true_r.
        apply isScalar_spec. lia.
Qed.

(** Reading the code points of a well-formed string and writing them
    back as code units gives the string. *)
Lemma codeUnits_codePoints (n : nat) :
  forall s, length s <= n -> Utf8.isString s = true -> Utf8.isWellFormed s = true ->
            flat_map Utf8.codeUnits (Utf8.codePoints s) = s.
Proof.
  induction n as [|n IH]; intros s Hn Hs Hw.
  - destruct s; [reflexivity | cbn [length] in Hn; lia].
  - destruct s as [|c r]; [reflexivity|].
    apply isString_cons in Hs as [Hc Hr].
    cbn [length] in Hn. cbn [Utf8.codePoints Utf8.isWellFormed] in *.
    destruct (Utf8.isHighSurrogate c) eqn:Hh.
    + apply surrogate_tests in Hh.
      destruct r as [|d r']; [discriminate|].
      apply andb_true_iff in Hw as [Hl Hw]. rewrite Hl.
      apply surrogate_tests in Hl.
      apply isString_cons in Hr as [_ Hr'].
      cbn [flat_map]. cbn [length] in Hn. rewrite IH; [|lia|assumption|assumption].
      unfold Utf8.codeUnits. settle_tests. cbn [app].
      f_equal; [lia|]. f_equal. lia.
    + apply andb_true_iff in Hw as [Hl Hw]. apply negb_true_iff in Hl. rewrite Hl.
      cbn [flat_map]. rewrite IH; [|lia|assumption|assumption].
      unfold Utf8.codeUnits. settle_tests. reflexivity.
Qed.

(** What decoding gives back for any string: its code points, an
    unpaired surrogate read as U+FFFD, written as code units. *)
Lemma decode_encode_any (s : jsstring) :
  Utf8.isString s = true ->
  Utf8.decode (Utf8.encode s) = Some (flat_map Utf8.codeUnits (Utf8.codePoints s)).
Proof.
  intros Hs. unfold Utf8.decode, Utf8.encode.
  rewrite decode_encoded_codePoints; [reflexivity|].
  now apply (codePoints_scalar (length s)).
Qed.

Lemma decode_encode (s : jsstring) :
  Utf8.isString s = true -> Utf8.isWellFormed s = true ->
  Utf8.decode (Utf8.encode s) = Some s.
Proof.
  intros Hs Hw. rewrite decode_encode_any by assumption.
  now rewrite (codeUnits_codePoints (length s)).
Qed.

(** C8 (as amended).  An attachment with a non-empty filename whose
    content is a non-empty string without unpaired surrogates is mapped
    to a wire attachment with the same filename whose content is the
    UTF-8 encoding of the string, and decoding that content as UTF-8
    gives the string back. *)
Theorem string_attachment_round_trip (a : Mail.Attachment) (fn s : jsstring) :
  Mail.filename a = Some fn -> Mail.content a = Some (Mail.ContentString s) ->
  truthy fn = true -> truthy s = true ->
  Utf8.isString s = true -> Utf8.isWellFormed s = true ->
  exists b, mapAttachment a = inr b
            /\ filename b = fn
            /\ content b = Utf8.encode s
            /\ Utf8.decode (content b) = Some s.
Proof.
  intros Hfn Hc Tfn Ts Hs Hw.
  exists {| content := Utf8.encode s; filename := fn |}.
  unfold mapAttachment. rewrite Hfn, Hc. simpl. rewrite Tfn, Ts. simpl.
  repeat split. now apply decode_encode.
Qed.

Lemma string_attachment_round_trip_witness :
  exists b, mapAttachment textAttachment = inr b
            /\ filename b = lit "notes.txt"
            /\ content b = Utf8.encode (lit "hello")
            /\ Utf8.decode (content b) = Some (lit "hello").
Proof.
  apply (string_attachment_round_trip textAttachment (lit "notes.txt") (lit "hello"));
    reflexivity.
Defined.

(** C8, the claim as stated fails: a string content with an unpaired
    surrogate is encoded as the bytes of U+FFFD, and decoding gives
    U+FFFD, not the original string. *)
Lemma string_attachment_round_trip_counterexample :
  Utf8.isString loneSurrogate = true
  /\ mapAttachment surrogateAttachment
     = inr {| content := [0xEF; 0xBF; 0xBD]%N; filename := lit "notes.txt" |}
  /\ Utf8.decode [0xEF; 0xBF; 0xBD]%N = Some [0xFFFD%N]
  /\ Utf8.decode (Utf8.encode loneSurrogate) <> Some loneSurrogate.
Proof.
  split; [reflexivity|]. split; [vm_compute; reflexivity|].
  split; [vm_compute; reflexivity | vm_compute; discriminate].
Qed.

(* ================================================================== *)
(** * Further properties of the adapter *)

(** ** The send operation *)

(** X1.  [sendEmail] resolves with a value exactly when the payload was
    assembled, [fetch] answered, the body parsed as JSON and the status
    was 200; the value is then the parsed body, unchanged. *)
Theorem sendEmail_resolves_iff (args : SweegoAdapterArgs) (fetch : network)
    (message : Mail.SendEmailOptions) (data : SweegoResponse) :
  snd (sendEmail args fetch message) = inr data
  <-> exists p response,
        mapPayloadEmailToSweegoEmail message (defaultFromAddress args)
          (defaultFromName args) (dryRun args) = inr p
        /\ fetch (sendRequest (apiKey args) p) = inr response
        /\ status response = 200%N
        /\ json response = Some data.
Proof.
  unfold sendEmail.
  destruct (mapPayloadEmailToSweegoEmail message (defaultFromAddress args)
              (defaultFromName args) (dryRun args)) as [e|p]; cbn [snd].
  - split; [discriminate|]. intros (p & r & H & _). discriminate.
  - split.
    + intros H. exists p.
      destruct (fetch (sendRequest (apiKey args) p)) as [e|response]; [discriminate|].
      exists response. cbn [bind] in H.
      destruct (json response) as [d|]; [|discriminate].
      destruct (N.eqb_spec (status response) 200); [|discriminate].
      injection H as ->. auto.
    + intros (p' & response & Hp & Hf & Hs & Hj). injection Hp as <-.
      rewrite Hf. cbn [bind]. rewrite Hj, Hs. reflexivity.
Qed.

Lemma mapReplyTo_fails_iff (replyTo : option Mail.Addresses) (e : exn) :
  mapReplyTo replyTo = inl e
  <-> e = TypeError
      /\ exists s, replyTo = Some (Mail.One (Mail.AddrString s))
                   /\ truthy s = true /\ s <> lit "string".
Proof.
  split.
  - destruct replyTo as [[[s|a]|l]|]; simpl; try discriminate.
    + destruct (truthy s) eqn:Ht; simpl; [|discriminate].
      destruct (str_eqb s (lit "string")) eqn:Hs; [discriminate|].
      intros H. injection H as <-. split; [reflexivity|].
      exists s. apply str_eqb_neq in Hs. auto.
    + destruct (List.map _ l); discriminate.
  - intros (-> & s & -> & Ht & Hs). now apply mapReplyTo_plain_string.
Qed.

(** X3.  When the assembly of the payload fails and when it succeeds:
    it fails with an [APIError] of status 400 carrying one of the two
    attachment messages when some attachment is refused; otherwise it
    fails with a [TypeError] when the reply-to is a non-empty string
    other than the literal [string]; in every other case a payload is
    assembled. *)
Theorem mapPayload_outcomes (message : Mail.SendEmailOptions)
    (a n : jsstring) (d : option bool) :
  let refusedAny :=
    match Mail.attachments message with
    | Some l => existsb Spec.refused l
    | None => false
    end in
  let plainReply :=
    match Mail.replyTo message with
    | Some (Mail.One (Mail.AddrString s)) => truthy s && negb (str_eqb s (lit "string"))
    | _ => false
    end in
  (refusedAny = true ->
   exists m, Spec.invalidAttachmentMessage m
             /\ mapPayloadEmailToSweegoEmail message a n d = inl (APIError m 400))
  /\ (refusedAny = false -> plainReply = true ->
      mapPayloadEmailToSweegoEmail message a n d = inl TypeError)
  /\ (refusedAny = false -> plainReply = false ->
      exists p, mapPayloadEmailToSweegoEmail message a n d = inr p).
Proof.
  cbv zeta.
  assert (Hacc : match Mail.attachments message with
                 | Some l => existsb Spec.refused l
                 | None => false
                 end = false ->
                 exists r, mapAttachments (Mail.attachments message) = inr r).
  { destruct (Mail.attachments message) as [l|]; simpl; [|eauto].
    intros Hl. destruct (mapM_accepted l Hl) as (r & -> & _). simpl. eauto. }
  split; [|split].
  - destruct (Mail.attachments message) as [l|] eqn:Hl; [|discriminate].
    intros H. destruct (mapM_refused l H) as (m & Hm & Hmap).
    exists m. split; [assumption|].
    apply mapPayload_attachment_failure. rewrite Hl. simpl. now rewrite Hmap.
  - intros Hr Hp. destruct (Hacc Hr) as (r & Hmap).
    unfold mapPayloadEmailToSweegoEmail. rewrite Hmap. cbn [bind].
    destruct (Mail.replyTo message) as [[[s|?]|?]|]; try discriminate.
    apply andb_true_iff in Hp as [Ht Hs]. apply negb_true_iff, str_eqb_neq in Hs.
    now rewrite (mapReplyTo_plain_string s Ht Hs).
  - intros Hr Hp. destruct (Hacc Hr) as (r & Hmap).
    unfold mapPayloadEmailToSweegoEmail. rewrite Hmap. cbn [bind].
    destruct (mapReplyTo (Mail.replyTo message)) as [e|reply] eqn:Hreply.
    + apply mapReplyTo_fails_iff in Hreply as (_ & s & Hs & Ht & Hneq).
      rewrite Hs in Hp. apply str_eqb_neq in Hneq. rewrite Ht, Hneq in Hp. discriminate.
    + cbn [bind]. eexists. reflexivity.
Qed.

Lemma mapPayload_outcomes_witness :
  (exists m, Spec.invalidAttachmentMessage m
             /\ mapPayloadEmailToSweegoEmail (withAttachments badAttachments)
                  (lit "a@b.c") (lit "A") None = inl (APIError m 400))
  /\ mapPayloadEmailToSweegoEmail replyToStringMessage (lit "a@b.c") (lit "A") None
     = inl TypeError
  /\ exists p, mapPayloadEmailToSweegoEmail exampleMessage (lit "a@b.c") (lit "A") None
               = inr p.
Proof.
  split; [|split].
  - apply (proj1 (mapPayload_outcomes (withAttachments badAttachments)
                    (lit "a@b.c") (lit "A") None)). reflexivity.
  - apply (proj1 (proj2 (mapPayload_outcomes replyToStringMessage
                           (lit "a@b.c") (lit "A") None))); reflexivity.
  - apply (proj2 (proj2 (mapPayload_outcomes exampleMessage
                           (lit "a@b.c") (lit "A") None))); reflexivity.
Defined.

(** ** The error message *)

(** X4.  For every status other than 200 and every body of the
    declared response type (an object of the success shape, or an error
    object whose [detail] is an array of entries with string or null
    [msg] and [type], or is absent, null or another falsy value),
    [sendEmail] fails with an [APIError] that carries the HTTP status
    and whose message begins with [Error sending email: <status>
    <statusText>.]; the one request has been posted. *)
Theorem rejected_send_always_headed (args : SweegoAdapterArgs) (fetch : network)
    (message : Mail.SendEmailOptions) (payload : SweegoSendEmailOptions)
    (response : Response) (data : SweegoResponse) :
  mapPayloadEmailToSweegoEmail message (defaultFromAddress args)
    (defaultFromName args) (dryRun args) = inr payload ->
  fetch (sendRequest (apiKey args) payload) = inr response ->
  status response <> 200%N ->
  json response = Some data ->
  exists rest,
    sendEmail args fetch message
    = ([sendRequest (apiKey args) payload],
       inl (APIError (lit "Error sending email: " ++ numberToString (status response)
                      ++ lit " " ++ statusText response ++ lit "." ++ rest)
                     (status response))).
Proof.
  intros Hmap Hfetch Hst Hjson.
  exists (Spec.detailTexts 0 (detailOrEmpty data)).
  rewrite (sendEmail_rejected args fetch message payload response data
             Hmap Hfetch Hst Hjson).
  rewrite formatError_texts. unfold Spec.heading.
  now rewrite <- !app_assoc.
Qed.

Lemma rejected_send_always_headed_witness :
  exists rest,
    sendEmail exampleArgs (fun _ => inr rejectedSecondOnly) exampleMessage
    = ([sendRequest (apiKey exampleArgs) examplePayload],
       inl (APIError (lit "Error sending email: " ++ numberToString 422
                      ++ lit " " ++ lit "Unprocessable Entity" ++ lit "." ++ rest)
                     422)).
Proof.
  apply (rejected_send_always_headed exampleArgs (fun _ => inr rejectedSecondOnly)
           exampleMessage examplePayload rejectedSecondOnly
           (Error {| detail := DetailArray secondOnly |})).
  - vm_compute. reflexivity.
  - reflexivity.
  - vm_compute. discriminate.
  - reflexivity.
Defined.

Lemma detailTexts_all_complete (l : list DetailEntry) :
  forallb Spec.complete l = true -> l <> [] ->
  forall idx, Spec.detailTexts (S idx) l
              = lit "; " ++ join (lit "; ") (List.map Spec.entryText l).
Proof.
  induction l as [|e l IH]; intros Hc Hne idx; [contradiction|].
  cbn [forallb] in Hc. apply andb_true_iff in Hc as [He Hl].
  cbn [Spec.detailTexts List.map]. rewrite He.
  destruct l as [|e' l'].
  - cbn [Spec.detailTexts List.map join]. now rewrite app_nil_r.
  - rewrite IH by (assumption || discriminate).
    cbn [List.map join]. now rewrite <- !app_assoc.
Qed.

(** X5.  When every entry of a non-empty [detail] has a non-empty type
    and a non-empty msg, the message of the error is the heading, one
    space, and the texts of the entries joined by a semicolon and a
    space. *)
Theorem rejected_send_joined (args : SweegoAdapterArgs) (fetch : network)
    (message : Mail.SendEmailOptions) (payload : SweegoSendEmailOptions)
    (response : Response) (entries : list DetailEntry) :
  mapPayloadEmailToSweegoEmail message (defaultFromAddress args)
    (defaultFromName args) (dryRun args) = inr payload ->
  fetch (sendRequest (apiKey args) payload) = inr response ->
  status response <> 200%N ->
  json response = Some (Error {| detail := DetailArray entries |}) ->
  forallb Spec.complete entries = true -> entries <> [] ->
  snd (sendEmail args fetch message)
  = inl (APIError (Spec.heading (status response) (statusText response)
                   ++ lit " " ++ join (lit "; ") (List.map Spec.entryText entries))
                  (status response)).
Proof.
  intros Hmap Hfetch Hst Hjson Hc Hne.
  rewrite (sendEmail_rejected args fetch message payload response _
             Hmap Hfetch Hst Hjson).
  rewrite formatError_texts. cbn [snd detailOrEmpty].
  destruct entries as [|e l]; [contradiction|].
  cbn [forallb] in Hc. apply andb_true_iff in Hc as [He Hl].
  cbn [Spec.detailTexts]. rewrite He.
  destruct l as [|e' l'].
  - cbn [Spec.detailTexts List.map join]. now rewrite app_nil_r.
  - rewrite detailTexts_all_complete by (assumption || discriminate).
    cbn [List.map join]. now rewrite <- !app_assoc.
Qed.

Lemma rejected_send_joined_witness :
  snd (sendEmail exampleArgs (fun _ => inr rejectedTwoComplete) exampleMessage)
  = inl (APIError (Spec.heading 422 (lit "Unprocessable Entity")
                   ++ lit " " ++ join (lit "; ") (List.map Spec.entryText twoComplete))
                  422).
Proof.
  apply (rejected_send_joined exampleArgs (fun _ => inr rejectedTwoComplete)
           exampleMessage examplePayload rejectedTwoComplete twoComplete).
  - vm_compute. reflexivity.
  - reflexivity.
  - vm_compute. discriminate.
  - reflexivity.
  - reflexivity.
  - discriminate.
Defined.

(** ** The assembled payload *)

(** X6.  Every payload the adapter assembles names the provider
    [sweego] and the channel [email], has the recipients parsed from
    [to] and the message's subject (the empty string without one),
    carries the dry-run flag only as [true] and exactly when the adapter
    was configured with it, never carries an empty attachment list, has
    headers exactly when the message has, and has a text (html) part
    exactly when the message's text (html) is not the empty string. *)
Theorem payload_shape (message : Mail.SendEmailOptions) (a n : jsstring)
    (d : option bool) (p : SweegoSendEmailOptions) :
  mapPayloadEmailToSweegoEmail message a n d = inr p ->
  provider p = lit "sweego" /\ channel p = lit "email"
  /\ recipients p = mapAddresses (Mail.to message)
  /\ subject p = match Mail.subject message with Some s => s | None => [] end
  /\ dry_run p <> Some false /\ (dry_run p = Some true <-> d = Some true)
  /\ attachments p <> Some []
  /\ (headers p = None <-> Mail.headers message = None)
  /\ (message_txt p = None
      <-> Mail.text message = None \/ Mail.text message = Some (Mail.BodyString []))
  /\ (message_html p = None
      <-> Mail.html message = None \/ Mail.html message = Some (Mail.BodyString [])).
Proof.
  unfold mapPayloadEmailToSweegoEmail.
  destruct (mapAttachments (Mail.attachments message)) as [e|mapped]; [discriminate|].
  cbn [bind].
  destruct (mapReplyTo (Mail.replyTo message)) as [e|reply]; [discriminate|].
  cbn [bind ret]. intros H. injection H as <-. cbn.
  assert (Hbody : forall b, bodyToString b = None
                            <-> b = None \/ b = Some (Mail.BodyString [])).
  { intros [[[|c s]|[s|]]|]; simpl; split; try discriminate; auto;
      intros [H|H]; discriminate. }
  repeat split; try apply Hbody.
  - destruct d as [[|]|]; discriminate.
  - destruct d as [[|]|]; [reflexivity | discriminate | discriminate].
  - now intros ->.
  - destruct mapped as [[|x l]|]; discriminate.
  - destruct (Mail.headers message); [discriminate | reflexivity].
  - now intros ->.
Qed.

Lemma payload_shape_witness :
  provider examplePayload = lit "sweego" /\ dry_run examplePayload <> Some false
  /\ attachments examplePayload <> Some [].
Proof.
  pose proof (payload_shape exampleMessage (defaultFromAddress exampleArgs)
                (defaultFromName exampleArgs) (dryRun exampleArgs) examplePayload
                payload_of_example) as (H1 & _ & _ & _ & H2 & _ & H3 & _).
  auto.
Defined.

(** ** Lists of addresses *)

Lemma truthy_nonempty (s : jsstring) : s <> [] -> truthy s = true.
Proof. destruct s; [contradiction | reflexivity]. Qed.

(** X7.  On a list of addresses [mapAddresses] returns one parsed
    address per element, in the order of the list: the lengths agree and
    the result for a concatenation is the concatenation of the results.
    An element other than the empty string is parsed as the same value
    is parsed when it is the [from] of the message or the only [to]
    value, and when it is the first element of a reply-to list it is the
    reply-to of the payload. *)
Theorem mapAddresses_list (l l' : list Mail.AddressLike) :
  length (mapAddresses (Some (Mail.Many l))) = length l
  /\ mapAddresses (Some (Mail.Many (l ++ l')))
     = mapAddresses (Some (Mail.Many l)) ++ mapAddresses (Some (Mail.Many l'))
  /\ forall (x : Mail.AddressLike) (defaultName defaultAddress : jsstring),
       x <> Mail.AddrString [] ->
       (forall i, nth_error l i = Some x ->
          nth_error (mapAddresses (Some (Mail.Many l))) i
          = Some (mapFromAddress (Some x) defaultName defaultAddress))
       /\ mapAddresses (Some (Mail.One x))
          = [mapFromAddress (Some x) defaultName defaultAddress]
       /\ mapReplyTo (Some (Mail.Many (x :: l)))
          = inr (Some (mapFromAddress (Some x) defaultName defaultAddress)).
Proof.
  split; [apply length_map|]. split; [apply map_app|].
  intros x dn da Hx.
  assert (Hparse : mapFromAddress (Some x) dn da
                   = match x with
                     | Mail.AddrString s => ofAddressString s
                     | Mail.AddrObject o => ofAddressObject o
                     end).
  { destruct x as [s|o]; [|reflexivity]. simpl.
    rewrite truthy_nonempty; [reflexivity | congruence]. }
  rewrite Hparse. split; [|split].
  - intros i H. unfold mapAddresses. rewrite nth_error_map, H. reflexivity.
  - destruct x as [s|o]; [|reflexivity]. simpl.
    rewrite truthy_nonempty; [reflexivity | congruence].
  - reflexivity.
Qed.

Lemma mapAddresses_list_witness :
  mapAddresses (Some (Mail.One (Mail.AddrString bareAddress)))
  = [mapFromAddress (Some (Mail.AddrString bareAddress)) (lit "Zapal") (lit "a@b.c")].
Proof.
  apply (proj2 (proj2 (mapAddresses_list [] []))
           (Mail.AddrString bareAddress) (lit "Zapal") (lit "a@b.c")).
  discriminate.
Defined.

(** ** Address strings with a bracketed group *)

Lemma matchAt_name (pos : nat) (inp : jsstring) :
  matchAt re_name pos inp = star (nameBracket pos) pos inp.
Proof.
  unfold matchAt, re_name. cbn [matchAlt opened group1].
  change (fun pos' inp' => _) with (nameBracket pos).
  now destruct (star (nameBracket pos) pos inp).
Qed.

Lemma nameClose_without_gt (g e pos : nat) (b : jsstring) :
  ~ In gt_sign b -> nameClose g e pos b = None.
Proof.
  destruct b as [|x b]; simpl; [reflexivity|]. intros H.
  destruct (N.eqb_spec x gt_sign) as [->|_]; [|reflexivity].
  exfalso. apply H. now left.
Qed.

Lemma nameBracket_without_gt (g : nat) (inp : jsstring) :
  ~ In gt_sign inp -> forall pos, nameBracket g pos inp = None.
Proof.
  intros H pos. destruct inp as [|x inp]; simpl; [reflexivity|].
  destruct (x =? lt_sign)%N; [|reflexivity].
  apply star_all_fail. intros a b pos' E. apply nameClose_without_gt.
  intros Hb. apply H. right. rewrite E. apply in_or_app. now right.
Qed.

Lemma nameBracket_fails_in_group (g : nat) (c r : jsstring) :
  ~ In lt_sign c -> ~ In gt_sign r ->
  forall a b pos, c ++ gt_sign :: r = a ++ b -> nameBracket g pos b = None.
Proof.
  intros Hc Hr. induction c as [|x c IH]; intros a b pos E.
  - destruct a as [|y a]; simpl in E.
    + subst b. reflexivity.
    + injection E as _ E. apply nameBracket_without_gt.
      eapply not_in_suffix; eauto.
  - destruct a as [|y a]; simpl in E.
    + subst b. simpl.
      destruct (N.eqb_spec x lt_sign) as [->|_]; [|reflexivity].
      exfalso. apply Hc. now left.
    + injection E as _ E. eapply IH; [|exact E].
      intros H. apply Hc. now right.
Qed.

Lemma nameClose_star_closes (g e pos : nat) (c r : jsstring) :
  singleLine c -> ~ In gt_sign r ->
  star (nameClose g e) pos (c ++ gt_sign :: r)
  = Some (S (pos + length c), mkCaptures g (Some (g, e))).
Proof.
  intros Hc Hr. apply star_skip; [assumption|].
  rewrite star_here; [simpl; reflexivity | reflexivity |].
  apply star_all_fail. intros a b pos' E. apply nameClose_without_gt.
  eapply not_in_suffix; eauto.
Qed.

Lemma matchAt_name_group (p c r : jsstring) :
  singleLine p -> singleLine c -> ~ In lt_sign c -> ~ In gt_sign r ->
  matchAt re_name 0 (p ++ lt_sign :: c ++ gt_sign :: r)
  = Some (S (S (length p + length c)), mkCaptures 0 (Some (0, length p))).
Proof.
  intros Hp Hc Hlt Hgt. rewrite matchAt_name.
  apply star_skip; [assumption|]. simpl Nat.add.
  rewrite star_here.
  - simpl. rewrite nameClose_star_closes by assumption. reflexivity.
  - reflexivity.
  - apply star_all_fail. intros a b pos E.
    now apply (nameBracket_fails_in_group 0 c r Hlt Hgt a b pos).
Qed.

Lemma replace_name_group (p c r : jsstring) :
  singleLine p -> singleLine c -> ~ In lt_sign c -> ~ In gt_sign r ->
  replace re_name Group1 (p ++ lt_sign :: c ++ gt_sign :: r) = p ++ r.
Proof.
  intros Hp Hc Hlt Hgt. unfold replace.
  rewrite (search_here _ _ _ _ (matchAt_name_group p c r Hp Hc Hlt Hgt)).
  unfold substitute, substring. simpl group1. cbv iota beta.
  rewrite Nat.sub_0_r, skipn_O, firstn_O, firstn_length_app.
  replace (p ++ lt_sign :: c ++ gt_sign :: r) with ((p ++ lt_sign :: c) ++ gt_sign :: r)
    by (rewrite <- app_assoc; reflexivity).
  replace (S (length p + length c)) with (length (p ++ lt_sign :: c))
    by (rewrite length_app; simpl; lia).
  rewrite skipn_past. reflexivity.
Qed.

Lemma extractName_group (s p c r : jsstring) :
  trim s = p ++ lt_sign :: c ++ gt_sign :: r ->
  singleLine p -> singleLine c -> ~ In lt_sign c -> ~ In gt_sign r ->
  extractNameFromAddressString s
  = trim (stripQuotes squote (trim (stripQuotes dquote (trim (p ++ r))))).
Proof.
  intros E Hp Hc Hlt Hgt. unfold extractNameFromAddressString.
  rewrite E, replace_name_group by assumption.
  now rewrite !replaceAll_quote.
Qed.

Lemma extractName_group_shorter (s p c r : jsstring) :
  trim s = p ++ lt_sign :: c ++ gt_sign :: r ->
  singleLine p -> singleLine c -> ~ In lt_sign c -> ~ In gt_sign r ->
  length (extractNameFromAddressString s) < length s.
Proof.
  intros E Hp Hc Hlt Hgt. rewrite (extractName_group s p c r) by assumption.
  pose proof (trim_length s) as L0. rewrite E in L0.
  rewrite length_app in L0. cbn [length] in L0. rewrite length_app in L0.
  cbn [length] in L0.
  pose proof (trim_length (p ++ r)) as L1. rewrite length_app in L1.
  pose proof (stripQuotes_length dquote (trim (p ++ r))) as L2.
  pose proof (trim_length (stripQuotes dquote (trim (p ++ r)))) as L3.
  pose proof (stripQuotes_length squote (trim (stripQuotes dquote (trim (p ++ r))))) as L4.
  pose proof (trim_length (stripQuotes squote (trim (stripQuotes dquote (trim (p ++ r))))))
    as L5.
  lia.
Qed.

Lemma ofAddressString_group (s p c r : jsstring) :
  trim s = p ++ lt_sign :: c ++ gt_sign :: r ->
  singleLine p -> singleLine c -> ~ In lt_sign c -> ~ In gt_sign r ->
  s <> []
  /\ ofAddressString s
     = {| email := trim (c ++ r);
          name := Some (trim (stripQuotes squote
                          (trim (stripQuotes dquote (trim (p ++ r)))))) |}.
Proof.
  intros E Hp Hc Hlt Hgt.
  split; [intros ->; destruct p; discriminate|].
  unfold ofAddressString.
  assert (Hne : str_eqb (extractNameFromAddressString s) s = false).
  { apply str_eqb_neq. intros Heq.
    pose proof (extractName_group_shorter s p c r E Hp Hc Hlt Hgt) as L.
    rewrite Heq in L. lia. }
  rewrite Hne. rewrite (extractName_group s p c r) by assumption.
  f_equal. unfold extractEmailFromAddressString.
  now rewrite E, replace_email_group.
Qed.

(** X8.  An address string whose trimmed form is [p<c>r] (no line
    terminator in [p] or [c], [c] without a less-than sign, [r] without
    a greater-than sign) is parsed, as [from] and as the only [to]
    value, to an address whose email is [c ++ r] trimmed and whose name
    is always present: it is what precedes and follows the group, [p ++
    r], trimmed, without one double quote at either end, trimmed,
    without one apostrophe at either end, and trimmed. *)
Theorem named_address_parse (s p c r defaultName defaultAddress : jsstring) :
  trim s = p ++ lt_sign :: c ++ gt_sign :: r ->
  singleLine p -> singleLine c -> ~ In lt_sign c -> ~ In gt_sign r ->
  mapFromAddress (Some (Mail.AddrString s)) defaultName defaultAddress
  = {| email := trim (c ++ r);
       name := Some (trim (stripQuotes squote
                       (trim (stripQuotes dquote (trim (p ++ r)))))) |}
  /\ mapAddresses (Some (Mail.One (Mail.AddrString s)))
     = [mapFromAddress (Some (Mail.AddrString s)) defaultName defaultAddress].
Proof.
  intros E Hp Hc Hlt Hgt.
  destruct (ofAddressString_group s p c r E Hp Hc Hlt Hgt) as [Hs Hparse].
  unfold mapFromAddress, mapAddresses. rewrite (truthy_nonempty s Hs). cbn [negb].
  now rewrite Hparse.
Qed.

Lemma named_address_parse_witness :
  mapFromAddress (Some (Mail.AddrString namedAddress)) (lit "Zapal") (lit "a@b.c")
  = {| email := trim (lit "hello@zapal.tech" ++ []);
       name := Some (trim (stripQuotes squote
                       (trim (stripQuotes dquote (trim (lit "Zapal " ++ [])))))) |}
  /\ mapAddresses (Some (Mail.One (Mail.AddrString namedAddress)))
     = [mapFromAddress (Some (Mail.AddrString namedAddress)) (lit "Zapal") (lit "a@b.c")].
Proof.
  apply (named_address_parse namedAddress (lit "Zapal ") (lit "hello@zapal.tech") []
           (lit "Zapal") (lit "a@b.c")).
  - vm_compute. reflexivity.
  - intros x Hx. vm_compute in Hx. intuition (subst; reflexivity).
  - intros x Hx. vm_compute in Hx. intuition (subst; reflexivity).
  - vm_compute. intuition discriminate.
  - simpl. tauto.
Defined.

Lemma trimEnd_snoc_kept (l : jsstring) (y : N) :
  isTrimmed y = false -> trimEnd (l ++ [y]) = l ++ [y].
Proof.
  intros Hy. unfold trimEnd. rewrite rev_app_distr. cbn [rev app trimStart].
  rewrite Hy. cbn [rev]. now rewrite rev_involutive.
Qed.

Lemma trimEnd_snoc_trimmed (l : jsstring) (x : N) :
  isTrimmed x = true -> trimEnd (l ++ [x]) = trimEnd l.
Proof.
  intros Hx. unfold trimEnd. rewrite rev_app_distr. cbn [rev app trimStart].
  now rewrite Hx.
Qed.

Lemma trim_between (x y : N) (m : jsstring) :
  isTrimmed x = false -> isTrimmed y = false ->
  trim (x :: m ++ [y]) = x :: m ++ [y].
Proof.
  intros Hx Hy. unfold trim. cbn [trimStart]. rewrite Hx.
  now apply (trimEnd_snoc_kept (x :: m) y).
Qed.

Lemma dropLastQuote_snoc (q : N) (l : jsstring) : dropLastQuote q (l ++ [q]) = l.
Proof.
  induction l as [|x l IH]; cbn [app dropLastQuote].
  - now rewrite N.eqb_refl.
  - destruct (l ++ [q]) eqn:E; [destruct l; discriminate|]. now rewrite IH.
Qed.

Lemma singleLine_app (a b : jsstring) : singleLine a -> singleLine b -> singleLine (a ++ b).
Proof. intros Ha Hb x Hx. apply in_app_or in Hx as [H|H]; auto. Qed.

Lemma singleLine_cons (x : N) (a : jsstring) :
  isLineTerminator x = false -> singleLine a -> singleLine (x :: a).
Proof. intros Hx Ha y [<-|Hy]; auto. Qed.

(** X9.  An address string of the form of the test suite, a display
    name in double quotes, a space and an address in angle brackets, is
    parsed to exactly that address and that name, provided the name and
    the address are on one line and have no white space at either end,
    the name has no apostrophe at either end and the address has no
    less-than sign. *)
Theorem quoted_form_parse (displayName address defaultName defaultAddress : jsstring) :
  singleLine displayName -> trim displayName = displayName ->
  Spec.startsWith squote displayName = false ->
  Spec.endsWith squote displayName = false ->
  singleLine address -> trim address = address -> ~ In lt_sign address ->
  mapFromAddress (Some (Mail.AddrString (quotedForm displayName address)))
    defaultName defaultAddress
  = {| email := address; name := Some displayName |}
  /\ mapAddresses (Some (Mail.One (Mail.AddrString (quotedForm displayName address))))
     = [{| email := address; name := Some displayName |}].
Proof.
  intros Hn Tn Sn En Ha Ta Hlt.
  set (p := dquote :: displayName ++ [dquote; 32%N]).
  assert (Hform : quotedForm displayName address
                  = p ++ lt_sign :: address ++ gt_sign :: []).
  { unfold quotedForm, p. cbn [app]. rewrite <- !app_assoc. reflexivity. }
  assert (Htrim : trim (quotedForm displayName address)
                  = p ++ lt_sign :: address ++ gt_sign :: []).
  { rewrite Hform.
    assert (p ++ lt_sign :: address ++ [gt_sign]
            = dquote :: (displayName ++ [dquote; 32%N] ++ lt_sign :: address) ++ [gt_sign])
      as -> by (unfold p; cbn [app]; rewrite <- !app_assoc; reflexivity).
    now apply trim_between. }
  assert (Hp : singleLine p).
  { unfold p. apply singleLine_cons; [reflexivity|].
    apply singleLine_app; [assumption|].
    apply singleLine_cons; [reflexivity|]. apply singleLine_cons; [reflexivity|].
    intros x []. }
  assert (Hname : trim (stripQuotes squote (trim (stripQuotes dquote (trim (p ++ [])))))
                  = displayName).
  { rewrite app_nil_r. unfold p.
    assert (trim (dquote :: displayName ++ [dquote; 32%N])
            = dquote :: displayName ++ [dquote]) as ->.
    { unfold trim. cbn [trimStart]. change (isTrimmed dquote) with false. cbv iota.
      replace (dquote :: displayName ++ [dquote; 32%N])
        with (((dquote :: displayName) ++ [dquote]) ++ [32%N])
        by (cbn [app]; rewrite <- app_assoc; reflexivity).
      rewrite trimEnd_snoc_trimmed by reflexivity.
      now apply trimEnd_snoc_kept. }
    unfold stripQuotes at 2. rewrite N.eqb_refl, dropLastQuote_snoc, Tn.
    rewrite (proj2 (stripQuotes_fixed squote displayName) Sn En). exact Tn. }
  destruct (ofAddressString_group (quotedForm displayName address) p address []
              Htrim Hp Ha Hlt (fun H => H)) as [Hs Hparse].
  unfold mapFromAddress, mapAddresses. rewrite (truthy_nonempty _ Hs). cbn [negb].
  rewrite Hparse, Hname, app_nil_r, Ta. split; reflexivity.
Qed.

Lemma quoted_form_parse_witness :
  mapFromAddress (Some (Mail.AddrString (quotedForm (lit "Zapal") (lit "hello+to@zapal.tech"))))
    (lit "Zapal") (lit "a@b.c")
  = {| email := lit "hello+to@zapal.tech"; name := Some (lit "Zapal") |}
  /\ mapAddresses (Some (Mail.One (Mail.AddrString
                     (quotedForm (lit "Zapal") (lit "hello+to@zapal.tech")))))
     = [{| email := lit "hello+to@zapal.tech"; name := Some (lit "Zapal") |}].
Proof.
  apply (quoted_form_parse (lit "Zapal") (lit "hello+to@zapal.tech")
           (lit "Zapal") (lit "a@b.c")).
  - intros x Hx. vm_compute in Hx. intuition (subst; reflexivity).
  - vm_compute. reflexivity.
  - reflexivity.
  - reflexivity.
  - intros x Hx. vm_compute in Hx. intuition (subst; reflexivity).
  - vm_compute. reflexivity.
  - vm_compute. intuition discriminate.
Defined.

(** ** Blank addresses *)

Lemma trim_blank (s : jsstring) : forallb isTrimmed s = true -> trim s = [].
Proof.
  intros H. unfold trim.
  assert (trimStart s = []) as ->; [|reflexivity].
  induction s as [|c s IH]; [reflexivity|].
  cbn [forallb] in H. apply andb_true_iff in H as [Hc Hs].
  cbn [trimStart]. rewrite Hc. auto.
Qed.

Lemma blank_without_lt (s : jsstring) : forallb isTrimmed s = true -> ~ In lt_sign s.
Proof.
  intros H Hin. rewrite forallb_forall in H. specialize (H _ Hin). discriminate.
Qed.

(** X10.  The empty string counts as no address: as [from] it gives
    the default sender and as [to] no recipient.  A non-empty string of
    white space only is an address: it is parsed to a recipient (or
    sender) whose email is the empty string and whose name is the empty
    string. *)
Theorem blank_address_parse (s defaultName defaultAddress : jsstring) :
  mapAddresses (Some (Mail.One (Mail.AddrString []))) = []
  /\ mapFromAddress (Some (Mail.AddrString [])) defaultName defaultAddress
     = mapFromAddress None defaultName defaultAddress
  /\ (s <> [] -> forallb isTrimmed s = true ->
      mapAddresses (Some (Mail.One (Mail.AddrString s)))
      = [{| email := []; name := Some [] |}]
      /\ mapFromAddress (Some (Mail.AddrString s)) defaultName defaultAddress
         = {| email := []; name := Some [] |}).
Proof.
  split; [reflexivity|]. split; [reflexivity|].
  intros Hs Hb.
  pose proof (blank_without_lt s Hb) as Hlt.
  assert (Hparse : ofAddressString s = {| email := []; name := Some [] |}).
  { unfold ofAddressString.
    rewrite extractEmail_without_brackets by now left.
    rewrite extractName_without_lt by assumption.
    rewrite (trim_blank s Hb). cbn.
    destruct s; [contradiction | reflexivity]. }
  unfold mapAddresses, mapFromAddress. rewrite (truthy_nonempty s Hs). cbn [negb].
  now rewrite Hparse.
Qed.

Lemma blank_address_parse_witness :
  mapAddresses (Some (Mail.One (Mail.AddrString blankAddress)))
  = [{| email := []; name := Some [] |}]
  /\ mapFromAddress (Some (Mail.AddrString blankAddress)) (lit "Zapal") (lit "a@b.c")
     = {| email := []; name := Some [] |}.
Proof.
  apply (proj2 (proj2 (blank_address_parse blankAddress (lit "Zapal") (lit "a@b.c")))).
  - discriminate.
  - reflexivity.
Defined.

(** ** Emails are trimmed *)

Lemma extractEmail_trimmed (s : jsstring) :
  trim (extractEmailFromAddressString s) = extractEmailFromAddressString s.
Proof. unfold extractEmailFromAddressString. apply trim_idem. Qed.

(** X11.  Every email the adapter parses from the message has no white
    space at either end: all the recipients, the sender when the message
    gives one, and the reply-to. *)
Theorem parsed_emails_trimmed (addresses : option Mail.Addresses) :
  Forall (fun e => trim (email e) = email e) (mapAddresses addresses)
  /\ (forall x defaultName defaultAddress,
        x <> Mail.AddrString [] ->
        trim (email (mapFromAddress (Some x) defaultName defaultAddress))
        = email (mapFromAddress (Some x) defaultName defaultAddress))
  /\ (forall e, mapReplyTo addresses = inr (Some e) -> trim (email e) = email e).
Proof.
  assert (Hlist : forall l,
            Forall (fun e => trim (email e) = email e)
                   (mapAddresses (Some (Mail.Many l)))).
  { intros l. unfold mapAddresses. apply Forall_forall. intros e He.
    apply in_map_iff in He as (x & <- & _).
    destruct x; apply extractEmail_trimmed. }
  split; [|split].
  - destruct addresses as [[[s|o]|l]|]; [| | apply Hlist | constructor].
    + simpl. destruct (truthy s); simpl; constructor;
        [apply extractEmail_trimmed | constructor].
    + simpl. constructor; [apply extractEmail_trimmed | constructor].
  - intros [s|o] dn da Hx; simpl.
    + rewrite truthy_nonempty by congruence. apply extractEmail_trimmed.
    + apply extractEmail_trimmed.
  - intros e. destruct addresses as [[[s|o]|l]|]; simpl; try discriminate.
    + destruct (truthy s); simpl; [|discriminate].
      destruct (str_eqb s (lit "string")); [|discriminate].
      intros H. injection H as <-. apply extractEmail_trimmed.
    + intros H. injection H as <-. apply extractEmail_trimmed.
    + pose proof (Hlist l) as HF. unfold mapAddresses in HF.
      destruct (List.map _ l) as [|a r]; [discriminate|].
      intros H. injection H as <-. now inversion HF.
Qed.

(** ** Headers *)

Lemma setProperty_fresh (key value : jsstring) (h : list (jsstring * jsstring)) :
  ~ In key (List.map fst h) -> setProperty key value h = h ++ [(key, value)].
Proof.
  induction h as [|[k v] h IH]; simpl; intros H; [reflexivity|].
  destruct (str_eqb k key) eqn:E.
  - apply str_eqb_eq in E. exfalso. apply H. now left.
  - rewrite IH; [reflexivity|]. intros Hin. apply H. now right.
Qed.

Lemma setProperty_keys (key value : jsstring) (h : list (jsstring * jsstring)) :
  In key (List.map fst h) -> List.map fst (setProperty key value h) = List.map fst h.
Proof.
  induction h as [|[k v] h IH]; simpl; intros H; [contradiction|].
  destruct (str_eqb k key) eqn:E; [reflexivity|].
  simpl. rewrite IH; [reflexivity|].
  destruct H as [H|H]; [|assumption].
  apply str_eqb_neq in E. contradiction.
Qed.

Lemma setHeader_NoDup (key value : jsstring) (h : list (jsstring * jsstring)) :
  NoDup (List.map fst h) -> NoDup (List.map fst (setHeader key value h)).
Proof.
  intros H. unfold setHeader. destruct (str_eqb key (lit "__proto__")); [assumption|].
  destruct (in_dec (list_eq_dec N.eq_dec) key (List.map fst h)) as [Hin|Hout].
  - now rewrite setProperty_keys.
  - rewrite setProperty_fresh by assumption. rewrite map_app. simpl.
    apply NoDup_app; [assumption | repeat constructor; intros [] |].
    intros x Hx [<-|[]]. contradiction.
Qed.

Lemma setHeader_never_proto (key value : jsstring) (h : list (jsstring * jsstring)) :
  ~ In (lit "__proto__") (List.map fst h) ->
  ~ In (lit "__proto__") (List.map fst (setHeader key value h)).
Proof.
  intros H. unfold setHeader. destruct (str_eqb key (lit "__proto__")) eqn:E; [assumption|].
  apply str_eqb_neq in E.
  destruct (in_dec (list_eq_dec N.eq_dec) key (List.map fst h)) as [Hin|Hout].
  - now rewrite setProperty_keys.
  - rewrite setProperty_fresh by assumption. rewrite map_app. simpl.
    intros Hin. apply in_app_or in Hin as [Hin|[Hin|[]]]; [contradiction | congruence].
Qed.

Lemma headers_fold_invariant (headers : Mail.Headers) :
  forall acc,
    NoDup (List.map fst acc) /\ ~ In (lit "__proto__") (List.map fst acc) ->
    let result :=
      fold_left (fun sweegoHeaders kv =>
                   match snd kv with
                   | Mail.HeaderString s => setHeader (fst kv) s sweegoHeaders
                   | Mail.HeaderList l => setHeader (fst kv) (join (lit ", ") l) sweegoHeaders
                   | Mail.HeaderOther => sweegoHeaders
                   end) headers acc in
    NoDup (List.map fst result) /\ ~ In (lit "__proto__") (List.map fst result).
Proof.
  induction headers as [|[k v] headers IH]; intros acc Hacc; [exact Hacc|].
  cbn [fold_left]. apply IH. cbn [fst snd]. destruct Hacc as [H1 H2].
  destruct v; [split | split | split; assumption];
    (now apply setHeader_NoDup) || (now apply setHeader_never_proto).
Qed.

Lemma headers_fold_fresh (headers : Mail.Headers) :
  NoDup (List.map fst headers) ->
  forall acc, (forall k, In k (List.map fst acc) -> ~ In k (List.map fst headers)) ->
    fold_left (fun sweegoHeaders kv =>
                 match snd kv with
                 | Mail.HeaderString s => setHeader (fst kv) s sweegoHeaders
                 | Mail.HeaderList l => setHeader (fst kv) (join (lit ", ") l) sweegoHeaders
                 | Mail.HeaderOther => sweegoHeaders
                 end) headers acc
    = acc ++ flat_map keptHeader headers.
Proof.
  induction headers as [|[k v] headers IH]; intros Hnd acc Hacc.
  - simpl. now rewrite app_nil_r.
  - cbn [fold_left flat_map fst snd]. simpl in Hnd. inversion Hnd as [|? ? Hk Hrest]; subst.
    assert (Hfresh : ~ In k (List.map fst acc)).
    { intros Hin. apply (Hacc k Hin). now left. }
    assert (Hsame : forall k', In k' (List.map fst acc) -> ~ In k' (List.map fst headers)).
    { intros k' Hin H. apply (Hacc k' Hin). now right. }
    assert (Hstep : forall value,
              forall k', In k' (List.map fst (acc ++ [(k, value)])) ->
                         ~ In k' (List.map fst headers)).
    { intros value k' Hin. rewrite map_app in Hin. apply in_app_or in Hin as [Hin|Hin].
      - now apply Hsame.
      - destruct Hin as [<-|[]]. assumption. }
    unfold keptHeader at 1, setHeader. cbn [fst snd].
    destruct (str_eqb k (lit "__proto__")).
    + cbn [app]. destruct v; now apply IH.
    + destruct v as [s|l|].
      * rewrite setProperty_fresh by assumption.
        rewrite IH by (assumption || apply Hstep). now rewrite <- app_assoc.
      * rewrite setProperty_fresh by assumption.
        rewrite IH by (assumption || apply Hstep). now rewrite <- app_assoc.
      * now apply IH.
Qed.

(** X12.  [messageHeadersToSweegoHeaders] returns an object with one
    value per key and without a property [__proto__].  For the headers
    of a message (an object: its keys are distinct) it keeps the headers
    in their order, a string value as it is and a list of strings joined
    by a comma and a space, and drops every header whose value is of
    another kind and the header whose key is [__proto__], which the
    assignment does not store. *)
Theorem headers_flattened (headers : Mail.Headers) :
  NoDup (List.map fst (messageHeadersToSweegoHeaders headers))
  /\ ~ In (lit "__proto__") (List.map fst (messageHeadersToSweegoHeaders headers))
  /\ (NoDup (List.map fst headers) ->
      messageHeadersToSweegoHeaders headers = flat_map keptHeader headers).
Proof.
  unfold messageHeadersToSweegoHeaders.
  destruct (headers_fold_invariant headers []) as [H1 H2].
  { split; [constructor | intros []]. }
  split; [exact H1|]. split; [exact H2|].
  intros H. rewrite headers_fold_fresh; [reflexivity | assumption |].
  intros k [].
Qed.

Lemma headers_flattened_witness :
  messageHeadersToSweegoHeaders exampleHeaders
  = [(lit "X-Campaign", lit "init"); (lit "X-Tags", lit "a, b")].
Proof.
  rewrite (proj2 (proj2 (headers_flattened exampleHeaders))); [reflexivity|].
  repeat constructor; simpl; intuition discriminate.
Defined.

(** ** The bytes of a string content *)

Lemma encodeCodePoint_shape (cp : N) :
  isScalar cp = true ->
  isBytes (Utf8.encodeCodePoint cp) = true
  /\ 1 <= length (Utf8.encodeCodePoint cp) <= 4
  /\ ((cp < 0x10000)%N -> length (Utf8.encodeCodePoint cp) <= 3).
Proof.
  intros H. apply isScalar_spec in H as [Hmax _].
  unfold Utf8.encodeCodePoint, isBytes.
  destruct (N.ltb_spec cp 0x80); [|destruct (N.ltb_spec cp 0x800);
    [|destruct (N.ltb_spec cp 0x10000)]]; cbn [forallb length];
    settle_tests; repeat split; solve [reflexivity | lia].
Qed.

Lemma isBytes_app (a b : Utf8.buffer) :
  isBytes a = true -> isBytes b = true -> isBytes (a ++ b) = true.
Proof. intros Ha Hb. unfold isBytes in *. now rewrite forallb_app, Ha, Hb. Qed.

Lemma encode_cons_plain (c : N) (r : jsstring) :
  Utf8.isHighSurrogate c = false -> Utf8.isLowSurrogate c = false ->
  Utf8.encode (c :: r) = Utf8.encodeCodePoint c ++ Utf8.encode r.
Proof. intros Hh Hl. unfold Utf8.encode. cbn [Utf8.codePoints]. now rewrite Hh, Hl. Qed.

(** The bytes and the length of the encoding of a string. *)
Lemma encode_shape (n : nat) :
  forall s, length s <= n -> Utf8.isString s = true ->
            isBytes (Utf8.encode s) = true
            /\ length s <= length (Utf8.encode s) <= 3 * length s.
Proof.
  induction n as [|n IH]; intros s Hn Hs.
  - destruct s; [split; [reflexivity | simpl; lia] | cbn [length] in Hn; lia].
  - destruct s as [|c r]; [split; [reflexivity | simpl; lia]|].
    apply isString_cons in Hs as [Hc Hr]. cbn [length] in Hn.
    assert (Hfffd : isScalar 0xFFFD = true) by reflexivity.
    unfold Utf8.encode. cbn [Utf8.codePoints].
    destruct (Utf8.isHighSurrogate c) eqn:Hh.
    + apply surrogate_tests in Hh.
      destruct r as [|d r'].
      * split; [reflexivity | simpl; lia].
      * destruct (Utf8.isLowSurrogate d) eqn:Hl.
        -- apply surrogate_tests in Hl. apply isString_cons in Hr as [_ Hr'].
           cbn [length] in Hn.
           destruct (IH r' ltac:(lia) Hr') as [B L]. unfold Utf8.encode in B, L.
           cbn [flat_map]. rewrite length_app.
           assert (Hcp : isScalar (0x10000 + (c - 0xD800) * 0x400 + (d - 0xDC00)) = true)
             by (apply isScalar_spec; lia).
           destruct (encodeCodePoint_shape _ Hcp) as (B1 & L1 & _).
           assert (L4 : length (Utf8.encodeCodePoint
                                  (0x10000 + (c - 0xD800) * 0x400 + (d - 0xDC00))) = 4).
           { unfold Utf8.encodeCodePoint. settle_tests. reflexivity. }
           split; [now apply isBytes_app | cbn [length]; lia].
        -- destruct (IH (d :: r') ltac:(lia) Hr) as [B L]. unfold Utf8.encode in B, L.
           cbn [flat_map]. rewrite length_app.
           split; [now apply isBytes_app|].
           change (length (Utf8.encodeCodePoint 0xFFFD)) with 3.
           cbn [length] in *. lia.
    + apply isHighSurrogate_false in Hh.
      destruct (IH r ltac:(lia) Hr) as [B L]. unfold Utf8.encode in B, L.
      destruct (Utf8.isLowSurrogate c) eqn:Hl; cbn [flat_map]; rewrite length_app.
      * split; [now apply isBytes_app|].
        change (length (Utf8.encodeCodePoint 0xFFFD)) with 3. cbn [length]. lia.
      * apply isLowSurrogate_false in Hl.
        assert (Hcp : isScalar c = true) by (apply isScalar_spec; lia).
        destruct (encodeCodePoint_shape c Hcp) as (B1 & L1 & L3).
        specialize (L3 Hc).
        split; [now apply isBytes_app | cbn [length]; lia].
Qed.

Lemma mapAttachment_string (a : Mail.Attachment) (fn s : jsstring) :
  Mail.filename a = Some fn -> Mail.content a = Some (Mail.ContentString s) ->
  fn <> [] -> s <> [] ->
  mapAttachment a = inr {| content := Utf8.encode s; filename := fn |}.
Proof.
  intros Hfn Hc Tfn Ts. unfold mapAttachment. rewrite Hfn, Hc. simpl.
  now rewrite (truthy_nonempty fn Tfn), (truthy_nonempty s Ts).
Qed.

(** X13.  The content of the wire attachment made from a string
    content is a sequence of bytes, at least as many as the string has
    code units and at most three times as many. *)
Theorem string_attachment_bytes (a : Mail.Attachment) (fn s : jsstring) :
  Mail.filename a = Some fn -> Mail.content a = Some (Mail.ContentString s) ->
  fn <> [] -> s <> [] -> Utf8.isString s = true ->
  exists b, mapAttachment a = inr b
            /\ isBytes (content b) = true
            /\ length s <= length (content b) <= 3 * length s.
Proof.
  intros Hfn Hc Tfn Ts Hs. eexists. split; [now apply (mapAttachment_string a fn s)|].
  cbn [content]. now apply (encode_shape (length s)).
Qed.

Lemma string_attachment_bytes_witness :
  exists b, mapAttachment textAttachment = inr b
            /\ isBytes (content b) = true
            /\ length (lit "hello") <= length (content b) <= 3 * length (lit "hello").
Proof.
  apply (string_attachment_bytes textAttachment (lit "notes.txt") (lit "hello"));
    (reflexivity || discriminate).
Defined.

Lemma encode_ascii (s : jsstring) : isAscii s = true -> Utf8.encode s = s.
Proof.
  induction s as [|c r IH]; intros H; [reflexivity|].
  unfold isAscii in H. cbn [forallb] in H. apply andb_true_iff in H as [Hc Hr].
  apply N.ltb_lt in Hc.
  rewrite encode_cons_plain.
  - rewrite (IH Hr). unfold Utf8.encodeCodePoint. settle_tests. reflexivity.
  - apply isHighSurrogate_false. lia.
  - apply isLowSurrogate_false. lia.
Qed.

(** X14.  A string content of ASCII characters is sent byte for byte:
    the content of the wire attachment is the sequence of its code
    units. *)
Theorem ascii_attachment_unchanged (a : Mail.Attachment) (fn s : jsstring) :
  Mail.filename a = Some fn -> Mail.content a = Some (Mail.ContentString s) ->
  fn <> [] -> s <> [] -> isAscii s = true ->
  mapAttachment a = inr {| content := s; filename := fn |}.
Proof.
  intros Hfn Hc Tfn Ts Hs. rewrite (mapAttachment_string a fn s) by assumption.
  now rewrite encode_ascii.
Qed.

Lemma ascii_attachment_unchanged_witness :
  mapAttachment textAttachment
  = inr {| content := lit "hello"; filename := lit "notes.txt" |}.
Proof.
  apply (ascii_attachment_unchanged textAttachment (lit "notes.txt") (lit "hello"));
    (reflexivity || discriminate).
Defined.

(** ** Decoding the bytes of any string content *)

Lemma codeUnits_read_back (cp : N) (rest : jsstring) :
  isScalar cp = true ->
  Utf8.codePoints (Utf8.codeUnits cp ++ rest) = cp :: Utf8.codePoints rest
  /\ Utf8.isWellFormed (Utf8.codeUnits cp ++ rest) = Utf8.isWellFormed rest.
Proof.
  intros H. apply isScalar_spec in H as [Hmax Hsur].
  unfold Utf8.codeUnits. destruct (N.ltb_spec cp 0x10000) as [Hlow|Hhigh].
  - cbn [app Utf8.codePoints Utf8.isWellFormed].
    assert (Utf8.isHighSurrogate cp = false) as -> by (apply isHighSurrogate_false; lia).
    assert (Utf8.isLowSurrogate cp = false) as -> by (apply isLowSurrogate_false; lia).
    split; reflexivity.
  - cbn [app Utf8.codePoints Utf8.isWellFormed].
    assert (Utf8.isHighSurrogate (0xD800 + (cp - 0x10000) / 0x400) = true) as ->
      by (apply surrogate_tests; lia).
    assert (Utf8.isLowSurrogate (0xDC00 + (cp - 0x10000) mod 0x400) = true) as ->
      by (apply surrogate_tests; lia).
    split; [|reflexivity]. f_equal. lia.
Qed.

Lemma codeUnits_list_read_back (cps : list N) :
  forallb isScalar cps = true ->
  Utf8.codePoints (flat_map Utf8.codeUnits cps) = cps
  /\ Utf8.isWellFormed (flat_map Utf8.codeUnits cps) = true.
Proof.
  induction cps as [|cp cps IH]; intros H; [split; reflexivity|].
  cbn [forallb] in H. apply andb_true_iff in H as [Hcp Hcps].
  cbn [flat_map]. destruct (codeUnits_read_back cp (flat_map Utf8.codeUnits cps) Hcp)
    as [-> ->].
  destruct (IH Hcps) as [-> ->]. split; reflexivity.
Qed.

Lemma codeUnits_codePoints_length (n : nat) :
  forall s, length s <= n -> Utf8.isString s = true ->
            length (flat_map Utf8.codeUnits (Utf8.codePoints s)) = length s.
Proof.
  induction n as [|n IH]; intros s Hn Hs.
  - destruct s; [reflexivity | cbn [length] in Hn; lia].
  - destruct s as [|c r]; [reflexivity|].
    apply isString_cons in Hs as [Hc Hr]. cbn [length] in Hn.
    cbn [Utf8.codePoints].
    destruct (Utf8.isHighSurrogate c) eqn:Hh.
    + apply surrogate_tests in Hh. destruct r as [|d r']; [reflexivity|].
      destruct (Utf8.isLowSurrogate d) eqn:Hl.
      * apply surrogate_tests in Hl. apply isString_cons in Hr as [_ Hr'].
        cbn [length] in Hn. cbn [flat_map]. rewrite length_app, IH; [|lia|assumption].
        unfold Utf8.codeUnits. settle_tests. reflexivity.
      * cbn [flat_map]. rewrite length_app, IH; [|lia|assumption]. reflexivity.
    + apply isHighSurrogate_false in Hh.
      destruct (Utf8.isLowSurrogate c) eqn:Hl; cbn [flat_map];
        rewrite length_app, IH; try lia; try assumption; [reflexivity|].
      unfold Utf8.codeUnits. settle_tests. reflexivity.
Qed.

(** X15.  The bytes made from any string content decode: they are
    well-formed UTF-8.  The decoded string has the length of the
    original, has no unpaired surrogate, is encoded to the same bytes,
    and is the original when that has no unpaired surrogate. *)
Theorem string_content_decodes (s : jsstring) :
  Utf8.isString s = true ->
  exists s', Utf8.decode (Utf8.encode s) = Some s'
             /\ length s' = length s
             /\ Utf8.isWellFormed s' = true
             /\ Utf8.encode s' = Utf8.encode s
             /\ (Utf8.isWellFormed s = true -> s' = s).
Proof.
  intros Hs. exists (flat_map Utf8.codeUnits (Utf8.codePoints s)).
  pose proof (codePoints_scalar (length s) s (le_n _) Hs) as Hsc.
  destruct (codeUnits_list_read_back _ Hsc) as [Hback Hwf].
  split; [now apply decode_encode_any|].
  split; [now apply (codeUnits_codePoints_length (length s))|].
  split; [assumption|].
  split; [unfold Utf8.encode; now rewrite Hback|].
  intros Hw. now apply (codeUnits_codePoints (length s)).
Qed.

Lemma string_content_decodes_witness :
  exists s', Utf8.decode (Utf8.encode emojiText) = Some s'
             /\ length s' = length emojiText
             /\ Utf8.isWellFormed s' = true
             /\ Utf8.encode s' = Utf8.encode emojiText
             /\ (Utf8.isWellFormed emojiText = true -> s' = emojiText).
Proof. apply (string_content_decodes emojiText). reflexivity. Defined.

Example emoji_bytes : Utf8.encode emojiText = [111; 107; 32; 0xF0; 0x9F; 0x98; 0x80]%N.
Proof. vm_compute. reflexivity. Qed.

(** ** The first refused attachment *)

Lemma mapAttachment_refusal (a : Mail.Attachment) :
  Spec.refused a = true -> mapAttachment a = inl (APIError (refusalMessage a) 400).
Proof.
  unfold Spec.refused, mapAttachment, refusalMessage. intros H.
  destruct (Mail.filename a) as [[|c fn]|]; destruct (Mail.content a) as [[[|d s]|b|]|];
    cbn in *; try reflexivity; discriminate.
Qed.

(** X16.  The mapping of a list of attachments stops at the first
    attachment it refuses: the error is the one of that attachment,
    whatever follows it in the list, and [sendEmail] fails with it
    without posting.  Its message is the one about the kind of content
    when that attachment has a non-empty filename and a content that is
    neither a string nor a buffer, and the one about a missing filename
    or content otherwise. *)
Theorem first_refused_attachment_decides (args : SweegoAdapterArgs) (fetch : network)
    (message : Mail.SendEmailOptions) (before after : list Mail.Attachment)
    (a : Mail.Attachment) :
  Mail.attachments message = Some (before ++ a :: after) ->
  existsb Spec.refused before = false ->
  Spec.refused a = true ->
  sendEmail args fetch message = ([], inl (APIError (refusalMessage a) 400)).
Proof.
  intros Hl Hb Ha.
  apply sendEmail_mapping_failure, mapPayload_attachment_failure.
  rewrite Hl. cbn [mapAttachments].
  assert (H : mapM mapAttachment (before ++ a :: after)
              = inl (APIError (refusalMessage a) 400)).
  { clear Hl. induction before as [|b before IH]; cbn [app mapM].
    - now rewrite (mapAttachment_refusal a Ha).
    - cbn [existsb] in Hb. apply orb_false_iff in Hb as [Hb1 Hb2].
      destruct (mapAttachment_accepted b Hb1) as (w & -> & _). cbn [bind].
      now rewrite (IH Hb2). }
  now rewrite H.
Qed.

Lemma first_refused_attachment_decides_witness :
  sendEmail exampleArgs (fun _ => inr accepted200) (withAttachments mixedAttachments)
  = ([], inl (APIError contentMessage 400)).
Proof.
  apply (first_refused_attachment_decides exampleArgs (fun _ => inr accepted200)
           (withAttachments mixedAttachments) [textAttachment]
           [{| Mail.filename := None;
               Mail.content := Some (Mail.ContentString (lit "orphan")) |}]
           streamAttachment); reflexivity.
Defined.

(** ** Attachments are sent as bytes *)

Lemma encode_binaryOf (s : jsstring) :
  Utf8.isString s = true -> binaryOf s (Utf8.encode s).
Proof.
  intros Hs. unfold binaryOf.
  split; [now apply (encode_shape (length s))|]. split.
  - exists (flat_map Utf8.codeUnits (Utf8.codePoints s)).
    split; [now apply decode_encode_any|].
    now apply (codeUnits_codePoints_length (length s)).
  - intros Hw. now apply decode_encode.
Qed.

Lemma carried_encodedContent (l : list Mail.Attachment) (r : list Attachment) :
  Forall2 Spec.carried l r -> Forall2 encodedContent l r.
Proof.
  induction 1 as [|a b l r Hab _ IH]; constructor; [|assumption].
  unfold Spec.carried in Hab. unfold encodedContent.
  destruct Hab as [_ Hc].
  destruct (Mail.content a) as [[s|buf|]|]; try exact I.
  intros Hs. rewrite Hc. now apply encode_binaryOf.
Qed.

Example euro_sign_bytes :
  mapAttachment euroAttachment
  = inr {| content := [0xE2; 0x82; 0xAC]%N; filename := lit "price.txt" |}.
Proof. vm_compute. reflexivity. Qed.

(** C6.  For a message with an attachment list: if some attachment has
    no filename, no content, or a content that is neither a string nor a
    buffer, [sendEmail] posts no request and fails with the [APIError]
    of status 400 that the mapping raises (one of its two messages);
    otherwise the mapping returns one wire attachment per attachment, in
    order, with the same filename and with a buffer content unchanged
    and a string content encoded to binary: the content is the UTF-8
    encoding of the string, a sequence of bytes that decodes to a string
    of the same length, the string itself when it has no unpaired
    surrogate.  An assembled payload carries this list (no
    [attachments] property when it is empty). *)
Theorem invalid_attachment_aborts_send (args : SweegoAdapterArgs) (fetch : network)
    (message : Mail.SendEmailOptions) (l : list Mail.Attachment) :
  Mail.attachments message = Some l ->
  (existsb Spec.refused l = true ->
   exists m, Spec.invalidAttachmentMessage m /\
             sendEmail args fetch message = ([], inl (APIError m 400)))
  /\ (existsb Spec.refused l = false ->
      exists r, mapAttachments (Mail.attachments message) = inr (Some r) /\
                Forall2 Spec.carried l r /\
                Forall2 encodedContent l r /\
                forall p, mapPayloadEmailToSweegoEmail message (defaultFromAddress args)
                            (defaultFromName args) (dryRun args) = inr p ->
                          attachments p = match r with [] => None | _ :: _ => Some r end).
Proof.
  intros Hl. split; intros H.
  - now apply sendEmail_refused_list with (l := l).
  - destruct (mapM_accepted l H) as (r & Hmap & HF).
    assert (Hr : mapAttachments (Mail.attachments message) = inr (Some r))
      by (rewrite Hl; simpl; now rewrite Hmap).
    exists r. split; [assumption|]. split; [assumption|].
    split; [now apply carried_encodedContent|].
    intros p Hp.
    rewrite (mapPayload_attachments message _ _ _ (Some r) p Hr Hp).
    now destruct r.
Qed.

Lemma invalid_attachment_aborts_send_witness :
  (exists m, Spec.invalidAttachmentMessage m /\
             sendEmail exampleArgs (fun _ => inr accepted200) (withAttachments badAttachments)
             = ([], inl (APIError m 400)))
  /\ (exists r, mapAttachments (Mail.attachments (withAttachments euroAttachments))
                = inr (Some r) /\
                Forall2 Spec.carried euroAttachments r /\
                Forall2 encodedContent euroAttachments r).
Proof.
  split.
  - apply (proj1 (invalid_attachment_aborts_send exampleArgs (fun _ => inr accepted200)
                    (withAttachments badAttachments) badAttachments eq_refl)).
    reflexivity.
  - destruct (proj2 (invalid_attachment_aborts_send exampleArgs (fun _ => inr accepted200)
                       (withAttachments euroAttachments) euroAttachments eq_refl) eq_refl)
      as (r & Hr & HF & HE & _).
    exists r. repeat split; assumption.
Defined.
